(** * Integrity-Coin: a shallow embedding of the consensus core

    The development follows the Go packages of the repository:
    [crypto] (hashing, addresses, signatures), [types] (block header and
    its serialisation), [merkle], [pow], [tx], [utxo], [blockchain] and
    the query surface of [grpc].  Go byte slices are lists of bytes, Go
    maps are finite maps, unsigned machine integers are [Z] with the
    wrap-around written out, and fallible functions return [result]. *)

From Stdlib Require Import ZArith List Lia Bool.
From Stdlib.Strings Require Import Ascii String Byte.
From Stdlib Require Import DecimalString.
From stdpp Require Import gmap strings list.

Open Scope Z_scope.

(** ** Bytes *)

Abbreviation bytes := (list byte).

#[global] Instance byte_eq_dec : EqDecision byte.
Proof.
  intros a b. destruct (Byte.eqb a b) eqn:E.
  - left. apply Byte.byte_dec_bl, E.
  - right. intros ->. rewrite Byte.byte_dec_lb in E; [discriminate | reflexivity].
Defined.

Definition Z_of_byte (b : byte) : Z := Z.of_N (Byte.to_N b).

Definition byte_of_Z (z : Z) : byte :=
  match Byte.of_N (Z.to_N (z mod 256)) with
  | Some b => b
  | None => x00
  end.

(** [make([]byte, n)]: a slice of [n] zero bytes. *)
Definition zero_bytes (n : nat) : bytes := repeat x00 n.

(** Little-endian encoding of an integer on [n] bytes, as
    [binary.Write(&buf, binary.LittleEndian, v)] does for a fixed-width
    integer; the value is taken modulo [2^(8n)], which is the two's
    complement image of a signed argument. *)
Fixpoint le_bytes (n : nat) (v : Z) : bytes :=
  match n with
  | O => []
  | S n' => byte_of_Z v :: le_bytes n' (Z.shiftr v 8)
  end.

Fixpoint le_value (bs : bytes) : Z :=
  match bs with
  | [] => 0
  | b :: bs' => Z_of_byte b + 256 * le_value bs'
  end.

(** Big-endian encoding on [n] bytes. *)
Definition be_bytes (n : nat) (v : Z) : bytes := rev (le_bytes n v).

(** [big.Int.SetBytes]: the bytes read as a big-endian unsigned integer. *)
Definition SetBytes (bs : bytes) : Z :=
  fold_left (fun acc b => 256 * acc + Z_of_byte b) bs 0.

(** [bytes.Equal]. *)
Definition bytes_Equal (a b : bytes) : bool := bool_decide (a = b).

(** ** SHA-256 (package [crypto/sha256] of the Go standard library)

    The hash of FIPS 180-4, written out so that block hashes, merkle
    roots and address checksums can be evaluated on concrete inputs. *)

Module SHA256.

Definition w32 (x : Z) : Z := Z.land x 4294967295.

Definition add32 (x y : Z) : Z := w32 (x + y).

Definition rotr (n x : Z) : Z :=
  Z.lor (Z.shiftr x n) (w32 (Z.shiftl x (32 - n))).

Definition Ch (x y z : Z) : Z :=
  Z.lxor (Z.land x y) (Z.land (Z.lxor x 4294967295) z).

Definition Maj (x y z : Z) : Z :=
  Z.lxor (Z.lxor (Z.land x y) (Z.land x z)) (Z.land y z).

Definition bsig0 (x : Z) : Z :=
  Z.lxor (Z.lxor (rotr 2 x) (rotr 13 x)) (rotr 22 x).

Definition bsig1 (x : Z) : Z :=
  Z.lxor (Z.lxor (rotr 6 x) (rotr 11 x)) (rotr 25 x).

Definition ssig0 (x : Z) : Z :=
  Z.lxor (Z.lxor (rotr 7 x) (rotr 18 x)) (Z.shiftr x 3).

Definition ssig1 (x : Z) : Z :=
  Z.lxor (Z.lxor (rotr 17 x) (rotr 19 x)) (Z.shiftr x 10).

(** The first [n] primes, by trial division among the numbers from
    [c] on ([fuel] bounds the candidates examined). *)
Definition is_prime (ps : list Z) (c : Z) : bool :=
  forallb (fun p => negb (c mod p =? 0)) ps.

Fixpoint primes_from (fuel n : nat) (c : Z) (ps : list Z) : list Z :=
  match fuel, n with
  | S fuel', S n' =>
      if is_prime ps c then primes_from fuel' n' (c + 1) (ps ++ [c])
      else primes_from fuel' n (c + 1) ps
  | _, _ => ps
  end.

Definition primes (n : nat) : list Z := primes_from 400 n 2 [].

(** Integer cube root: the largest [r] below [2^k] with [r^3 <= n]. *)
Fixpoint cube_root (k : nat) (n r : Z) : Z :=
  match k with
  | O => r
  | S k' =>
      let c := r + 2 ^ Z.of_nat k' in
      if c * c * c <=? n then cube_root k' n c else cube_root k' n r
  end.

(** The round constants: the first 32 bits of the fractional parts of
    the cube roots of the first 64 primes. *)
Definition K : list Z :=
  Eval vm_compute in
    map (fun p => w32 (cube_root 40 (p * 2 ^ 96) 0)) (primes 64).

(** The eight working variables / chaining values. *)
Record state := State {
  sa : Z; sb : Z; sc : Z; sd : Z; se : Z; sf : Z; sg : Z; sh : Z }.

(** The initial hash value: the first 32 bits of the fractional parts of
    the square roots of the first 8 primes. *)
Definition init : state :=
  Eval vm_compute in
    match map (fun p => w32 (Z.sqrt (p * 2 ^ 64))) (primes 8) with
    | [a; b; c; d; e; f; g; h] => State a b c d e f g h
    | _ => State 0 0 0 0 0 0 0 0
    end.

(** Padding: a one bit, zeros up to 56 modulo 64, then the bit length
    on eight big-endian bytes. *)
Definition pad (msg : bytes) : bytes :=
  let n := Z.of_nat (length msg) in
  let k := Z.to_nat ((55 - n) mod 64) in
  msg ++ x80 :: zero_bytes k ++ be_bytes 8 (8 * n).

(** Big-endian 32-bit words of a byte string (a trailing partial word
    is dropped; padded input has none). *)
Fixpoint words (bs : bytes) : list Z :=
  match bs with
  | b0 :: b1 :: b2 :: b3 :: rest => SetBytes [b0; b1; b2; b3] :: words rest
  | _ => []
  end.

(** Message schedule: [w] holds the words so far, most recent first. *)
Fixpoint schedule (n : nat) (w : list Z) : list Z :=
  match n with
  | O => w
  | S n' =>
      let x := add32 (add32 (ssig1 (nth 1 w 0)) (nth 6 w 0))
                     (add32 (ssig0 (nth 14 w 0)) (nth 15 w 0)) in
      schedule n' (x :: w)
  end.

Definition round (s : state) (kw : Z * Z) : state :=
  let (k, w) := kw in
  let t1 := add32 (add32 (add32 (sh s) (bsig1 (se s)))
                         (add32 (Ch (se s) (sf s) (sg s)) k)) w in
  let t2 := add32 (bsig0 (sa s)) (Maj (sa s) (sb s) (sc s)) in
  State (add32 t1 t2) (sa s) (sb s) (sc s)
        (add32 (sd s) t1) (se s) (sf s) (sg s).

Definition compress (s : state) (block : list Z) : state :=
  let w := rev (schedule 48 (rev block)) in
  let r := fold_left round (combine K w) s in
  State (add32 (sa s) (sa r)) (add32 (sb s) (sb r))
        (add32 (sc s) (sc r)) (add32 (sd s) (sd r))
        (add32 (se s) (se r)) (add32 (sf s) (sf r))
        (add32 (sg s) (sg r)) (add32 (sh s) (sh r)).

(** Process the words sixteen at a time; [fuel] bounds the number of
    blocks. *)
Fixpoint blocks (fuel : nat) (s : state) (ws : list Z) : state :=
  match fuel, ws with
  | S fuel', _ :: _ => blocks fuel' (compress s (firstn 16 ws)) (skipn 16 ws)
  | _, _ => s
  end.

Definition digest (s : state) : bytes :=
  be_bytes 4 (sa s) ++ be_bytes 4 (sb s) ++ be_bytes 4 (sc s) ++
  be_bytes 4 (sd s) ++ be_bytes 4 (se s) ++ be_bytes 4 (sf s) ++
  be_bytes 4 (sg s) ++ be_bytes 4 (sh s).

(** [sha256.Sum256]. *)
Definition Sum256 (msg : bytes) : bytes :=
  let ws := words (pad msg) in
  digest (blocks (length ws) init ws).

End SHA256.

Arguments SHA256.Sum256 : simpl never.

(** Hex rendering of a byte string, as [fmt.Sprintf("%x", b)]. *)
Definition hex_digit (n : Z) : ascii :=
  nth (Z.to_nat n)
      (list_ascii_of_string "0123456789abcdef") "0"%char.

Fixpoint hex (bs : bytes) : string :=
  match bs with
  | [] => EmptyString
  | b :: bs' =>
      String (hex_digit (Z_of_byte b / 16))
             (String (hex_digit (Z_of_byte b mod 16)) (hex bs'))
  end.

Example sha256_abc :
  hex (SHA256.Sum256 (list_byte_of_string "abc")) =
  "ba7816bf8f01cfea414140de5dae2223b00361a396177a9cb410ff61f20015ad"%string.
Proof. vm_compute. reflexivity. Qed.

Example sha256_empty :
  hex (SHA256.Sum256 []) =
  "e3b0c44298fc1c149afbf4c8996fb92427ae41e4649b934ca495991b7852b855"%string.
Proof. vm_compute. reflexivity. Qed.

(** ** Results of fallible functions

    A Go [(T, error)] pair: the errors of the repository are made with
    [fmt.Errorf] and carry their message. *)

Inductive result (A : Type) : Type :=
| Ok (a : A)
| Err (msg : string).
Arguments Ok {A} a.
Arguments Err {A} msg.

Definition is_ok {A} (r : result A) : bool :=
  match r with Ok _ => true | Err _ => false end.

Definition is_err {A} (r : result A) : bool := negb (is_ok r).

(** ** Package [types]: block headers and blocks *)

(** A [time.Time], as nanoseconds since the Unix epoch. *)
Abbreviation Time := Z.

Definition Second : Z := 1000000000.
Definition Hour : Z := 3600 * Second.

(** [t.Unix()]: whole seconds since the epoch. *)
Definition Unix (t : Time) : Z := t / Second.
(** [t.After(u)] and [t.Add(d)]. *)
Definition After (t u : Time) : bool := u <? t.
Definition Add (t : Time) (d : Z) : Time := t + d.

Record BlockHeader := mkHeader {
  Version : Z;            (* uint32 *)
  PrevBlockHash : bytes;
  MerkleRoot : bytes;
  Timestamp : Time;
  DifficultyTarget : Z;   (* uint32 *)
  Nonce : Z               (* uint32 *)
}.

(** [BlockHeader.Serialize]: the fields written to a buffer in order,
    integers through [binary.Write] with [binary.LittleEndian]
    ([uint32] on four bytes, the [int64] of [Timestamp.Unix()] on
    eight), the two hashes with [buf.Write] as they are. *)
Definition Serialize (h : BlockHeader) : bytes :=
  le_bytes 4 (Version h) ++
  PrevBlockHash h ++
  MerkleRoot h ++
  le_bytes 8 (Unix (Timestamp h)) ++
  le_bytes 4 (DifficultyTarget h) ++
  le_bytes 4 (Nonce h).

Definition with_nonce (h : BlockHeader) (n : Z) : BlockHeader :=
  mkHeader (Version h) (PrevBlockHash h) (MerkleRoot h) (Timestamp h)
           (DifficultyTarget h) n.

(** ** Package [crypto]: hashing *)

Definition HashBytes (data : bytes) : bytes := SHA256.Sum256 data.

Definition DoubleHashBytes (data : bytes) : bytes :=
  let firstHash := SHA256.Sum256 data in
  let secondHash := SHA256.Sum256 firstHash in
  secondHash.

Definition HashBlockHeader (header : BlockHeader) : bytes :=
  let serialized := Serialize header in
  DoubleHashBytes serialized.

(** ** Package [merkle] *)

Module Merkle.

(** The inner [for i := 0; i < len(tree); i += 2] loop of
    [BuildMerkleRoot]; [tree[i]] is [nth i tree []]. *)
Fixpoint level_loop (fuel : nat) (tree : list bytes) (i : nat)
         (newLevel : list bytes) : list bytes :=
  match fuel with
  | O => newLevel
  | S fuel' =>
      if (i <? length tree)%nat then
        let combined := nth i tree [] ++ nth (i + 1) tree [] in
        let parentHash := DoubleHashBytes combined in
        level_loop fuel' tree (i + 2) (newLevel ++ [parentHash])
      else newLevel
  end.

(** The outer [for len(tree) > 1] loop. *)
Fixpoint tree_loop (fuel : nat) (tree : list bytes) : list bytes :=
  match fuel with
  | O => tree
  | S fuel' =>
      if (1 <? length tree)%nat then
        let tree :=
          if negb (length tree mod 2 =? 0)%nat
          then tree ++ [nth (length tree - 1) tree []]
          else tree in
        let newLevel := level_loop (length tree) tree 0 [] in
        tree_loop fuel' newLevel
      else tree
  end.

Definition BuildMerkleRoot (txHashes : list bytes) : bytes :=
  if (length txHashes =? 0)%nat then zero_bytes 32
  else
    let tree := txHashes in
    nth 0 (tree_loop (length tree) tree) [].

End Merkle.


(** ** Package [tx]: transactions *)

Record TxInput := mkTxInput {
  TxID : option bytes;   (* [None] is the nil slice of a coinbase input *)
  OutIndex : Z;          (* int *)
  Signature : bytes;
  PubKey : bytes
}.

Record TxOutput := mkTxOutput {
  Value : Z;             (* int64 *)
  PubKeyHash : bytes
}.

Record Transaction := mkTransaction {
  ID : bytes;
  Inputs : list TxInput;
  Outputs : list TxOutput
}.

#[global] Instance TxOutput_eq_dec : EqDecision TxOutput.
Proof. solve_decision. Defined.

(** [IsCoinbase]: exactly one input, with a nil [TxID] and [OutIndex]
    equal to -1. *)
Definition IsCoinbase (t : Transaction) : bool :=
  match Inputs t with
  | [i] =>
      match TxID i with
      | None => OutIndex i =? -1
      | Some _ => false
      end
  | _ => false
  end.

(** [out.IsLockedWithKey(pubKeyHash)]. *)
Definition IsLockedWithKey (out : TxOutput) (pubKeyHash : bytes) : bool :=
  bytes_Equal (PubKeyHash out) pubKeyHash.

(** ** Blocks *)

(** [Transactions] is an [interface{}] in the source; [None] stands for
    a value that is not a [[]*tx.Transaction], on which the type
    assertion of the validation code fails. *)
Record Block := mkBlock {
  Header : BlockHeader;
  Transactions : option (list Transaction);
  Hash : bytes
}.

(** ** Package [pow]: proof-of-work *)

Module Pow.

Definition MaxNonce : Z := 4294967295.   (* math.MaxUint32 *)
Definition DefaultTargetBits : Z := 16.

Record ProofOfWork := mkPoW {
  PBlock : Block;
  Target : Z          (* *big.Int *)
}.

(** The shift amount [uint(256-targetBits)]: the subtraction is done on
    [uint32] and wraps around. *)
Definition shift_amount (targetBits : Z) : Z := (256 - targetBits) mod 2 ^ 32.

Definition NewProofOfWork (block : Block) : ProofOfWork :=
  let target := 1 in
  let targetBits := DifficultyTarget (Header block) in
  let target := Z.shiftl target (shift_amount targetBits) in
  mkPoW block target.

(** [hashInt.SetBytes(hash); hashInt.Cmp(target) == -1]. *)
Definition below_target (hash : bytes) (target : Z) : bool :=
  SetBytes hash <? target.

(** [Validate]. *)
Definition Validate (pow : ProofOfWork) : bool :=
  let hash := HashBlockHeader (Header (PBlock pow)) in
  below_target hash (Target pow).

(** The [for nonce < MaxNonce] loop of [Mine]; [hash] is the variable
    of that name, which keeps the last hash computed. *)
Fixpoint mine_loop (fuel : nat) (pow : ProofOfWork) (nonce : Z)
         (hash : bytes) : Z * bytes :=
  match fuel with
  | O => (nonce, hash)
  | S fuel' =>
      if nonce <? MaxNonce then
        let header := with_nonce (Header (PBlock pow)) nonce in
        let hash := HashBlockHeader header in
        if below_target hash (Target pow) then (nonce, hash)
        else mine_loop fuel' pow (nonce + 1) hash
      else (nonce, hash)
  end.

(** [Mine]: the loop runs at most [MaxNonce] times. *)
Definition Mine (pow : ProofOfWork) : Z * bytes :=
  mine_loop (Z.to_nat MaxNonce) pow 0 [].

(** [IsValidHash]. *)
Definition IsValidHash (hash : bytes) (difficultyTarget : Z) : bool :=
  let target := Z.shiftl 1 (shift_amount difficultyTarget) in
  below_target hash target.

End Pow.

(** ** Package [utxo]: the unspent-output set *)

Module Utxo.

(** [map[string][]tx.TxOutput], keyed by [string(txID)]. *)
Record UTXOSet := mkUTXOSet {
  UTXOs : gmap string (list TxOutput)
}.

(** The conversion [string(txID)] of a byte slice; a nil slice gives
    the empty string. *)
Definition key (txID : option bytes) : string :=
  match txID with
  | Some b => string_of_list_byte b
  | None => EmptyString
  end.

Definition NewUTXOSet : UTXOSet := mkUTXOSet ∅.

(** Methods that write to the set are state transformers over it; an
    error leaves whatever was written before it. *)
Definition M (A : Type) : Type := UTXOSet -> result A * UTXOSet.

Definition ret {A} (a : A) : M A := fun u => (Ok a, u).
Definition fail {A} (msg : string) : M A := fun u => (Err msg, u).
Definition bind {A B} (m : M A) (k : A -> M B) : M B :=
  fun u =>
    match m u with
    | (Ok a, u') => k a u'
    | (Err e, u') => (Err e, u')
    end.
(** [if err != nil { return fmt.Errorf(prefix + "%v", err) }]. *)
Definition wrap {A} (prefix : string) (m : M A) : M A :=
  fun u =>
    match m u with
    | (Ok a, u') => (Ok a, u')
    | (Err e, u') => (Err (prefix ++ e)%string, u')
    end.

Notation "m ;; k" := (bind m (fun _ => k))
  (at level 100, k at level 200, right associativity).

(** [AddUTXO]: the entry of [txID] becomes [outputs]. *)
Definition AddUTXO (txID : bytes) (outputs : list TxOutput) : M unit :=
  fun u => (Ok tt, mkUTXOSet (<[key (Some txID) := outputs]> (UTXOs u))).

(** [RemoveUTXO]. The new entry is
    [append(outputs[:index], outputs[index+1:]...)]. *)
Definition RemoveUTXO (txID : option bytes) (index : Z) : M unit :=
  fun u =>
    let k := key txID in
    match UTXOs u !! k with
    | None => (Err "UTXO not found"%string, u)
    | Some outputs =>
        if (index <? 0) || (Z.of_nat (length outputs) <=? index) then
          (Err "invalid output index"%string, u)
        else
          let outputs :=
            take (Z.to_nat index) outputs ++ drop (Z.to_nat index + 1) outputs in
          if (length outputs =? 0)%nat then
            (Ok tt, mkUTXOSet (delete k (UTXOs u)))
          else
            (Ok tt, mkUTXOSet (<[k := outputs]> (UTXOs u)))
    end.

(** [FindUTXO]. *)
Definition FindUTXO (u : UTXOSet) (txID : option bytes) (index : Z)
  : result TxOutput :=
  match UTXOs u !! key txID with
  | None => Err "transaction not found"%string
  | Some outputs =>
      if (index <? 0) || (Z.of_nat (length outputs) <=? index) then
        Err "invalid output index"%string
      else
        match outputs !! Z.to_nat index with
        | Some o => Ok o
        | None => Err "invalid output index"%string
        end
  end.

(** The loop of [Update] over the inputs. *)
Fixpoint remove_inputs (inputs : list TxInput) : M unit :=
  match inputs with
  | [] => ret tt
  | input :: rest =>
      wrap "failed to remove UTXO: "
           (RemoveUTXO (TxID input) (OutIndex input)) ;;
      remove_inputs rest
  end.

(** [Update]. *)
Definition Update (transaction : Transaction) : M unit :=
  (if negb (IsCoinbase transaction)
   then remove_inputs (Inputs transaction)
   else ret tt) ;;
  AddUTXO (ID transaction) (Outputs transaction).

(** [CountUTXOs]. *)
Definition CountUTXOs (u : UTXOSet) : Z :=
  map_fold (fun _ outputs count => count + Z.of_nat (length outputs)) 0
           (UTXOs u).

End Utxo.


(** ** Package [blockchain]: the chain engine *)

Module Blockchain.

Record Blockchain := mkBlockchain {
  Blocks : list Block;
  BCDifficultyTarget : Z;           (* the field [DifficultyTarget], uint32 *)
  UTXOSet : Utxo.UTXOSet;
  PendingTxs : list Transaction
}.

(** The loop [txHashes[i] = transaction.ID]. *)
Definition tx_hashes (transactions : list Transaction) : list bytes :=
  map ID transactions.

(** The loop [for i := 1; i < len(transactions); i++] of rule 7. *)
Fixpoint second_coinbase (rest : list Transaction) : bool :=
  match rest with
  | [] => false
  | t :: rest' => if IsCoinbase t then true else second_coinbase rest'
  end.

(** [ValidateBlock]; [now] is the value of [time.Now()] at rule 5.
    [Ok tt] is the nil error. *)
Definition ValidateBlock (bc : Blockchain) (now : Time) (block : Block)
  : result unit :=
  (* 1. Validate proof-of-work *)
  let proofOfWork := Pow.NewProofOfWork block in
  if negb (Pow.Validate proofOfWork) then Err "invalid proof-of-work"
  else
  (* 2. Verify block hash *)
  let computedHash := HashBlockHeader (Header block) in
  if negb (bytes_Equal computedHash (Hash block)) then Err "block hash mismatch"
  else
  (* Cast transactions *)
  match Transactions block with
  | None => Err "invalid transaction type"
  | Some transactions =>
  (* 3. Verify merkle root *)
  let computedMerkleRoot := Merkle.BuildMerkleRoot (tx_hashes transactions) in
  if negb (bytes_Equal computedMerkleRoot (MerkleRoot (Header block)))
  then Err "merkle root mismatch"
  else
  (* 4. Verify previous block hash (if not genesis) *)
  if match last (Blocks bc) with
     | Some prevBlock =>
         negb (bytes_Equal (PrevBlockHash (Header block)) (Hash prevBlock))
     | None => false
     end
  then Err "previous block hash mismatch"
  else
  (* 5. Verify timestamp is reasonable *)
  if After (Timestamp (Header block)) (Add now (2 * Hour))
  then Err "block timestamp too far in future"
  else
  (* 6. Verify first transaction is coinbase *)
  match transactions with
  | [] => Err "block has no transactions"
  | first :: rest =>
      if negb (IsCoinbase first) then Err "first transaction is not coinbase"
      else
      (* 7. Verify only one coinbase *)
      if second_coinbase rest then Err "multiple coinbase transactions"
      else Ok tt
  end
  end.

(** [Height]. *)
Definition Height (bc : Blockchain) : Z := Z.of_nat (length (Blocks bc)).

(** [GetBlock]. *)
Definition GetBlock (bc : Blockchain) (index : Z) : result Block :=
  if (index <? 0) || (Z.of_nat (length (Blocks bc)) <=? index) then
    Err "block index out of range"
  else
    match Blocks bc !! Z.to_nat index with
    | Some b => Ok b
    | None => Err "block index out of range"
    end.

End Blockchain.

(** ** Package [grpc]: the query surface *)

Module Server.

Import Blockchain.

Record Server := mkServer {
  bc : Blockchain;
  mempool : list Transaction
}.

Record BlockchainInfo := mkInfo {
  InfoHeight : Z;
  BestBlockHash : string;
  Difficulty : Z;
  TotalTransactions : Z;
  PeerCount : Z;
  IsSyncing : bool
}.

(** The loop [for i := 0; i <= height; i++] of [getTotalTransactions],
    from [i] on; [n] is the number of indices left.  An index whose
    lookup fails is skipped.  The unchecked type assertion
    [block.Transactions.([]*tx.Transaction)] panics on a block that holds
    something else: the panic is the [Err] of this result. *)
Fixpoint total_loop (n : nat) (bc : Blockchain) (i : Z) (count : Z)
  : result Z :=
  match n with
  | O => Ok count
  | S n' =>
      match GetBlock bc i with
      | Err _ => total_loop n' bc (i + 1) count
      | Ok block =>
          match Transactions block with
          | None => Err "panic: interface conversion"
          | Some transactions =>
              total_loop n' bc (i + 1)
                         (count + Z.of_nat (length transactions))
          end
      end
  end.

Definition getTotalTransactions (s : Server) : result Z :=
  let height := Height (bc s) in
  total_loop (Z.to_nat (height + 1)) (bc s) 0 0.

(** [GetBlockchainInfo]: the error of the lookup is dropped and only a
    block that was found gives a hash. *)
Definition GetBlockchainInfo (s : Server) : result BlockchainInfo :=
  let height := Height (bc s) in
  let bestHash :=
    match GetBlock (bc s) height with
    | Ok bestBlock => hex (Hash bestBlock)
    | Err _ => EmptyString
    end in
  match getTotalTransactions s with
  | Err p => Err p
  | Ok total =>
      Ok (mkInfo height bestHash (BCDifficultyTarget (bc s)) total 0 false)
  end.

(** [GetBestBlockHash]. *)
Definition GetBestBlockHash (s : Server) : result string :=
  let height := Height (bc s) in
  match GetBlock (bc s) height with
  | Err e => Err ("failed to get best block: " ++ e)
  | Ok block => Ok (hex (Hash block))
  end.

(** [GetBlockByHeight]. *)
Definition GetBlockByHeight (s : Server) (height : Z) : result Block :=
  match GetBlock (bc s) height with
  | Err e => Err ("block not found: " ++ e)
  | Ok block => Ok block
  end.

End Server.


(** * Properties *)

(** ** Block lookup and the tip accessors *)

Section Lookup.

Import Blockchain Server.

Lemma GetBlock_in_range (c : Blockchain) (i : Z) :
  0 <= i < Height c -> exists b, GetBlock c i = Ok b /\ b ∈ Blocks c.
Proof.
  unfold GetBlock, Height. intros Hi.
  destruct (i <? 0) eqn:Hneg; [lia|].
  destruct (Z.of_nat (length (Blocks c)) <=? i) eqn:Hge; [lia|]. simpl.
  destruct (lookup_lt_is_Some_2 (Blocks c) (Z.to_nat i)) as [b Hb]; [lia|].
  rewrite Hb. exists b. split; [reflexivity|].
  eapply list_elem_of_lookup_2, Hb.
Qed.

Lemma GetBlock_out_of_range (c : Blockchain) (i : Z) :
  i < 0 \/ Height c <= i -> GetBlock c i = Err "block index out of range".
Proof.
  unfold GetBlock, Height. intros Hi.
  destruct (i <? 0) eqn:Hneg; [reflexivity|].
  destruct (Z.of_nat (length (Blocks c)) <=? i) eqn:Hge; [reflexivity|]. lia.
Qed.

Lemma GetBlock_ok_iff (c : Blockchain) (i : Z) :
  is_ok (GetBlock c i) = true <-> 0 <= i <= Height c - 1.
Proof.
  split.
  - intros Hok.
    destruct (Z_lt_dec i 0) as [Hlt|Hge0];
      [rewrite GetBlock_out_of_range in Hok by lia; discriminate|].
    destruct (Z_le_dec (Height c) i) as [Hle|Hgt];
      [rewrite GetBlock_out_of_range in Hok by lia; discriminate|].
    lia.
  - intros Hi. destruct (GetBlock_in_range c i) as (b & -> & _); [lia|].
    reflexivity.
Qed.

Lemma total_loop_no_panic (c : Blockchain) (n : nat) :
  (forall b, b ∈ Blocks c -> is_Some (Transactions b)) ->
  forall i count, is_ok (total_loop n c i count) = true.
Proof.
  intros Hall. induction n as [|n IH]; intros i count; simpl; [reflexivity|].
  destruct (GetBlock c i) as [b|e] eqn:Hget; [|apply IH].
  assert (Hin : b ∈ Blocks c).
  { destruct (Z_lt_dec i 0) as [Hlt|Hge0];
      [rewrite GetBlock_out_of_range in Hget by lia; discriminate|].
    destruct (Z_le_dec (Height c) i) as [Hle|Hgt];
      [rewrite GetBlock_out_of_range in Hget by lia; discriminate|].
    destruct (GetBlock_in_range c i) as (b' & Hb' & Hin'); [lia|].
    congruence. }
  destruct (Hall b Hin) as [txs ->]. apply IH.
Qed.

(** C10. For every chain state, [GetBlock i] succeeds exactly for
    [0 <= i <= Height - 1] and fails at [i = Height]; the tip accessors
    of the query surface look the tip up at index [Height], so
    [GetBestBlockHash] returns an error on every state and
    [GetBlockchainInfo], which does answer whenever every block of the
    chain holds a transaction list, reports the empty string as best
    block hash. *)
Theorem tip_accessors_never_reach_tip (s : Server) :
  (forall i, is_ok (GetBlock (bc s) i) = true <-> 0 <= i <= Height (bc s) - 1)
  /\ is_ok (GetBlock (bc s) (Height (bc s))) = false
  /\ GetBestBlockHash s
     = Err "failed to get best block: block index out of range"
  /\ (forall info, GetBlockchainInfo s = Ok info ->
                   BestBlockHash info = EmptyString)
  /\ ((forall b, b ∈ Blocks (bc s) -> is_Some (Transactions b)) ->
      is_ok (GetBlockchainInfo s) = true).
Proof.
  assert (Htip : GetBlock (bc s) (Height (bc s))
                 = Err "block index out of range")
    by (apply GetBlock_out_of_range; lia).
  split; [intros i; apply GetBlock_ok_iff|].
  split; [rewrite Htip; reflexivity|].
  split; [unfold GetBestBlockHash; rewrite Htip; reflexivity|].
  split.
  - intros info. unfold GetBlockchainInfo. rewrite Htip.
    destruct (getTotalTransactions s); [|discriminate].
    intros [= <-]. reflexivity.
  - intros Hall. unfold GetBlockchainInfo, getTotalTransactions.
    pose proof (total_loop_no_panic (bc s) (Z.to_nat (Height (bc s) + 1))
                  Hall 0 0) as Hok.
    destruct (total_loop _ _ _ _); [reflexivity|discriminate].
Qed.

End Lookup.

(** ** Byte encodings *)

Lemma Z_of_byte_range (b : byte) : 0 <= Z_of_byte b < 256.
Proof.
  unfold Z_of_byte. pose proof (Byte.to_N_bounded b). lia.
Qed.

Lemma Z_of_byte_of_Z (v : Z) : Z_of_byte (byte_of_Z v) = v mod 256.
Proof.
  unfold Z_of_byte, byte_of_Z.
  assert (Hr : 0 <= v mod 256 < 256) by (apply Z.mod_pos_bound; lia).
  destruct (Byte.of_N (Z.to_N (v mod 256))) as [b|] eqn:E.
  - apply Byte.to_of_N in E. rewrite E. lia.
  - apply Byte.of_N_None_iff in E. lia.
Qed.

Lemma length_le_bytes (n : nat) (v : Z) : length (le_bytes n v) = n.
Proof.
  revert v. induction n as [|n IH]; intros v; simpl; [reflexivity|].
  now rewrite IH.
Qed.

Lemma length_be_bytes (n : nat) (v : Z) : length (be_bytes n v) = n.
Proof. unfold be_bytes. rewrite length_rev. apply length_le_bytes. Qed.

Lemma le_value_le_bytes (n : nat) (v : Z) :
  le_value (le_bytes n v) = v mod 2 ^ (8 * Z.of_nat n).
Proof.
  revert v. induction n as [|n IH]; intros v.
  - simpl. now rewrite Z.mod_1_r.
  - cbn [le_bytes le_value]. rewrite IH, Z_of_byte_of_Z, Z.shiftr_div_pow2 by lia.
    replace (8 * Z.of_nat (S n)) with (8 + 8 * Z.of_nat n) by lia.
    rewrite Z.pow_add_r by lia. change (2 ^ 8) with 256.
    rewrite (Z.rem_mul_r v 256 (2 ^ (8 * Z.of_nat n))) by lia. lia.
Qed.

Lemma le_value_range (bs : bytes) :
  0 <= le_value bs < 2 ^ (8 * Z.of_nat (length bs)).
Proof.
  induction bs as [|b bs IH]; [simpl; lia|].
  cbn [le_value length]. pose proof (Z_of_byte_range b).
  replace (8 * Z.of_nat (S (length bs))) with (8 + 8 * Z.of_nat (length bs)) by lia.
  rewrite Z.pow_add_r by lia. change (2 ^ 8) with 256. nia.
Qed.

(** ** The block header serialisation *)

Lemma length_Serialize (h : BlockHeader) :
  length (Serialize h)
  = (20 + length (PrevBlockHash h) + length (MerkleRoot h))%nat.
Proof.
  unfold Serialize. rewrite !length_app, !length_le_bytes. lia.
Qed.

Definition sample_header : BlockHeader :=
  mkHeader 1 (zero_bytes 32) (zero_bytes 32) (1700000000 * Second) 16 0.

(** C9, as stated, fails: a header with two 32-byte hashes serialises
    to 84 bytes ([4 + 32 + 32 + 8 + 4 + 4]), not to 80. *)
Lemma serialisation_is_not_80_bytes :
  length (PrevBlockHash sample_header) = 32%nat /\
  length (MerkleRoot sample_header) = 32%nat /\
  length (Serialize sample_header) = 84%nat /\
  length (Serialize sample_header) <> 80%nat.
Proof. repeat split; try reflexivity. vm_compute. discriminate. Qed.

Local Ltac len :=
  symmetry; first [apply length_le_bytes | eassumption].

(** C9, amended. For every header whose previous-block hash and merkle
    root are 32 bytes long, the serialisation is 84 bytes long and is
    laid out as: version (4 bytes), previous hash (32), merkle root (32),
    Unix seconds of the timestamp (8), difficulty target (4), nonce (4);
    each integer field reads back little-endian (the 64-bit timestamp in
    two's complement), and the header hash is the double SHA-256 of
    exactly these bytes. *)
Theorem header_serialisation_layout (h : BlockHeader) :
  length (PrevBlockHash h) = 32%nat ->
  length (MerkleRoot h) = 32%nat ->
  length (Serialize h) = 84%nat
  /\ le_value (take 4 (Serialize h)) = Version h mod 2 ^ 32
  /\ take 32 (drop 4 (Serialize h)) = PrevBlockHash h
  /\ take 32 (drop 36 (Serialize h)) = MerkleRoot h
  /\ le_value (take 8 (drop 68 (Serialize h))) = Unix (Timestamp h) mod 2 ^ 64
  /\ le_value (take 4 (drop 76 (Serialize h))) = DifficultyTarget h mod 2 ^ 32
  /\ le_value (take 4 (drop 80 (Serialize h))) = Nonce h mod 2 ^ 32
  /\ HashBlockHeader h = SHA256.Sum256 (SHA256.Sum256 (Serialize h)).
Proof.
  intros Hp Hm.
  assert (L4 : forall v, length (le_bytes 4 v) = 4%nat)
    by (intros; apply length_le_bytes).
  assert (L8 : forall v, length (le_bytes 8 v) = 8%nat)
    by (intros; apply length_le_bytes).
  split; [rewrite length_Serialize; lia|].
  pose proof L4 as L4'. pose proof L8 as L8'.
  unfold Serialize.
  split.
  { rewrite take_app_length' by len. apply (le_value_le_bytes 4). }
  rewrite drop_app_length' by len.
  split; [now rewrite take_app_length' by len|].
  split.
  { replace 36%nat with (4 + 32)%nat by reflexivity. rewrite <- drop_drop.
    rewrite drop_app_length' by len.
    rewrite drop_app_length' by len.
    now rewrite take_app_length' by len. }
  assert (Hrest : forall k,
    drop (68 + k) (le_bytes 4 (Version h) ++ PrevBlockHash h ++ MerkleRoot h ++
             le_bytes 8 (Unix (Timestamp h)) ++
             le_bytes 4 (DifficultyTarget h) ++ le_bytes 4 (Nonce h))
    = drop k (le_bytes 8 (Unix (Timestamp h)) ++
              le_bytes 4 (DifficultyTarget h) ++ le_bytes 4 (Nonce h))).
  { intros k. replace (68 + k)%nat with (4 + (32 + (32 + k)))%nat by lia.
    rewrite <- !drop_drop.
    rewrite drop_app_length' by len.
    rewrite drop_app_length' by len.
    now rewrite drop_app_length' by len. }
  split.
  { rewrite (Hrest 0%nat : drop 68 _ = _). rewrite drop_0.
    rewrite take_app_length' by len. apply (le_value_le_bytes 8). }
  split.
  { rewrite (Hrest 8%nat : drop 76 _ = _). rewrite drop_app_length' by len.
    rewrite take_app_length' by len. apply (le_value_le_bytes 4). }
  split.
  { rewrite (Hrest 12%nat : drop 80 _ = _). replace 12%nat with (8 + 4)%nat by reflexivity.
    rewrite <- drop_drop.
    rewrite drop_app_length' by len.
    rewrite drop_app_length' by len.
    rewrite firstn_all2 by (rewrite L4; lia). apply (le_value_le_bytes 4). }
  reflexivity.
Qed.

Lemma header_serialisation_layout_witness :
  length (Serialize sample_header) = 84%nat
  /\ le_value (take 4 (Serialize sample_header)) = Version sample_header mod 2 ^ 32
  /\ take 32 (drop 4 (Serialize sample_header)) = PrevBlockHash sample_header
  /\ take 32 (drop 36 (Serialize sample_header)) = MerkleRoot sample_header
  /\ le_value (take 8 (drop 68 (Serialize sample_header)))
     = Unix (Timestamp sample_header) mod 2 ^ 64
  /\ le_value (take 4 (drop 76 (Serialize sample_header)))
     = DifficultyTarget sample_header mod 2 ^ 32
  /\ le_value (take 4 (drop 80 (Serialize sample_header)))
     = Nonce sample_header mod 2 ^ 32
  /\ HashBlockHeader sample_header
     = SHA256.Sum256 (SHA256.Sum256 (Serialize sample_header)).
Proof. apply (header_serialisation_layout sample_header); reflexivity. Defined.

(** ** The merkle root *)

Module MerkleSpec.

Import Merkle.

(** The construction in the words of the specification: a level of odd
    length is padded with a copy of its last element, adjacent elements
    are paired, and each pair gives the parent
    [double_sha256 (left || right)]. *)
Definition duplicate_last (level : list bytes) : list bytes :=
  if Nat.odd (length level) then level ++ [List.last level []] else level.

Fixpoint pair_adjacent (level : list bytes) : list bytes :=
  match level with
  | l :: r :: rest =>
      DoubleHashBytes (l ++ r) :: pair_adjacent rest
  | _ => []
  end.

(** [merkle_root H r]: [r] is the root the specification assigns to the
    list [H] of transaction ids. *)
Inductive merkle_root : list bytes -> bytes -> Prop :=
| root_empty : merkle_root [] (zero_bytes 32)
| root_single (h : bytes) : merkle_root [h] h
| root_level (level : list bytes) (r : bytes) :
    (2 <= length level)%nat ->
    merkle_root (pair_adjacent (duplicate_last level)) r ->
    merkle_root level r.

Lemma merkle_root_functional (H : list bytes) (r r' : bytes) :
  merkle_root H r -> merkle_root H r' -> r = r'.
Proof.
  intros Hr. revert r'.
  induction Hr as [|h|level r Hlen Hr IH]; intros r' Hr'.
  - inversion Hr'; subst; [reflexivity | simpl in *; lia].
  - inversion Hr'; subst; [reflexivity | simpl in *; lia].
  - inversion Hr'; subst; simpl in Hlen; try lia. now apply IH.
Qed.

Lemma length_pair_adjacent (n : nat) :
  forall level, (length level <= n)%nat ->
    length (pair_adjacent level) = Nat.div2 (length level).
Proof.
  induction n as [n IH] using lt_wf_ind. intros level Hn.
  destruct level as [|x [|y rest]]; [reflexivity | reflexivity |].
  cbn [pair_adjacent length Nat.div2]. f_equal.
  apply (IH (length rest)); simpl in Hn; lia.
Qed.

Lemma length_duplicate_last (level : list bytes) :
  length (duplicate_last level)
  = (length level + (if Nat.odd (length level) then 1 else 0))%nat.
Proof.
  unfold duplicate_last. destruct (Nat.odd (length level)).
  - rewrite length_app. reflexivity.
  - lia.
Qed.

Lemma Even_length_duplicate_last (level : list bytes) :
  Nat.Even (length (duplicate_last level)).
Proof.
  rewrite length_duplicate_last.
  destruct (Nat.odd (length level)) eqn:Hodd.
  - apply Nat.odd_spec in Hodd. destruct Hodd as [k Hk].
    exists (S k). lia.
  - rewrite Nat.add_0_r. apply Nat.even_spec.
    rewrite <- Nat.negb_odd, Hodd. reflexivity.
Qed.

(** The index loop of the code builds the paired level. *)
Lemma level_loop_pairs (fuel : nat) :
  forall (tree : list bytes) (i : nat) (acc : list bytes),
    Nat.Even (length tree - i) ->
    (length tree - i <= 2 * fuel)%nat ->
    level_loop fuel tree i acc = acc ++ pair_adjacent (drop i tree).
Proof.
  induction fuel as [|fuel IH]; intros tree i acc Hev Hfuel.
  - simpl. rewrite drop_ge by lia. simpl. now rewrite app_nil_r.
  - cbn [level_loop]. destruct (i <? length tree)%nat eqn:Hi.
    + apply Nat.ltb_lt in Hi.
      assert (Hi1 : (i + 1 < length tree)%nat).
      { destruct Hev as [k Hk]. lia. }
      destruct (lookup_lt_is_Some_2 tree i Hi) as [x Hx].
      destruct (lookup_lt_is_Some_2 tree (i + 1) Hi1) as [y Hy].
      rewrite (nth_lookup_Some _ _ _ _ Hx), (nth_lookup_Some _ _ _ _ Hy).
      rewrite (drop_S _ _ _ Hx).
      replace (S i) with (i + 1)%nat by lia.
      rewrite (drop_S _ _ _ Hy).
      replace (S (i + 1)) with (i + 2)%nat by lia.
      cbn [pair_adjacent].
      rewrite IH.
      * now rewrite <- app_assoc.
      * destruct Hev as [k Hk]. exists (k - 1)%nat. lia.
      * lia.
    + apply Nat.ltb_ge in Hi. rewrite drop_ge by lia. simpl.
      now rewrite app_nil_r.
Qed.

(** The padding step of the code is [duplicate_last]. *)
Lemma pad_step_duplicate_last (tree : list bytes) :
  (if negb (length tree mod 2 =? 0)%nat
   then tree ++ [nth (length tree - 1) tree []] else tree)
  = duplicate_last tree.
Proof.
  unfold duplicate_last.
  assert (Hodd : negb (length tree mod 2 =? 0)%nat = Nat.odd (length tree)).
  { rewrite <- Nat.negb_even. f_equal.
    destruct (Nat.even (length tree)) eqn:He.
    - apply Nat.even_spec in He. destruct He as [k Hk]. apply Nat.eqb_eq.
      rewrite Hk, Nat.mul_comm. apply Nat.Div0.mod_mul.
    - apply Nat.eqb_neq. intros Hm.
      apply Nat.Div0.mod_divides in Hm. destruct Hm as [k Hk].
      assert (Nat.even (length tree) = true)
        by (apply Nat.even_spec; exists k; lia).
      congruence. }
  rewrite Hodd. destruct (Nat.odd (length tree)); [|reflexivity].
  f_equal. f_equal.
  destruct tree as [|x tree] using rev_ind; [reflexivity|].
  rewrite List.last_last, length_app. simpl.
  replace (length tree + 1 - 1)%nat with (length tree) by lia.
  rewrite app_nth2 by lia. now rewrite Nat.sub_diag.
Qed.

(** With fuel for every level, the outer loop ends on the single root. *)
Lemma tree_loop_root (fuel : nat) :
  forall tree : list bytes,
    (1 <= length tree <= fuel)%nat ->
    exists r, tree_loop fuel tree = [r] /\ merkle_root tree r.
Proof.
  induction fuel as [|fuel IH]; intros tree Hlen; [lia|].
  cbn [tree_loop]. destruct (1 <? length tree)%nat eqn:H1.
  - apply Nat.ltb_lt in H1.
    rewrite pad_step_duplicate_last.
    rewrite level_loop_pairs;
      [| rewrite Nat.sub_0_r; apply Even_length_duplicate_last | lia].
    rewrite drop_0. cbn [app].
    pose proof (Even_length_duplicate_last tree) as [k Hk].
    pose proof (length_duplicate_last tree) as Hd.
    pose proof (length_pair_adjacent _ (duplicate_last tree) (Nat.le_refl _))
      as Hp.
    rewrite Hk in Hp.
    replace (Nat.div2 (2 * k)) with k in Hp by (symmetry; apply Nat.div2_double).
    destruct (IH (pair_adjacent (duplicate_last tree))) as (r & Hr & Hspec).
    { destruct (Nat.odd (length tree)); lia. }
    exists r. split; [exact Hr|].
    apply root_level; [lia | exact Hspec].
  - apply Nat.ltb_ge in H1.
    destruct tree as [|h [|h' tree]]; simpl in *; try lia.
    exists h. split; [reflexivity | apply root_single].
Qed.

(** C6. For every ordered list [H] of transaction ids, the root the
    code computes is the root of the specification: 32 zero bytes for the
    empty list, the element itself for a singleton, and otherwise the
    root of the level obtained by padding an odd level with its last
    element and hashing adjacent pairs with double SHA-256; and it is
    the only value the specification allows. *)
Theorem BuildMerkleRoot_meets_spec (H : list bytes) :
  merkle_root H (BuildMerkleRoot H)
  /\ (forall r, merkle_root H r -> r = BuildMerkleRoot H)
  /\ BuildMerkleRoot [] = zero_bytes 32
  /\ (forall h, BuildMerkleRoot [h] = h)
  /\ ((2 <= length H)%nat ->
      BuildMerkleRoot H = BuildMerkleRoot (pair_adjacent (duplicate_last H))).
Proof.
  assert (Hspec : forall l, merkle_root l (BuildMerkleRoot l)).
  { intros l. unfold BuildMerkleRoot.
    destruct (length l =? 0)%nat eqn:H0.
    - apply Nat.eqb_eq in H0. destruct l; [apply root_empty | discriminate].
    - apply Nat.eqb_neq in H0.
      destruct (tree_loop_root (length l) l) as (r & -> & Hr); [lia|].
      exact Hr. }
  split; [apply Hspec|].
  split; [intros r Hr; eapply merkle_root_functional; [exact Hr | apply Hspec]|].
  split; [reflexivity|].
  split; [reflexivity|].
  intros Hlen.
  eapply merkle_root_functional; [apply Hspec|].
  apply root_level; [exact Hlen | apply Hspec].
Qed.

End MerkleSpec.

(** ** Proof-of-work validity *)

Lemma fold_SetBytes (bs : bytes) (acc : Z) :
  fold_left (fun a b => 256 * a + Z_of_byte b) bs acc
  = acc * 256 ^ Z.of_nat (length bs) + SetBytes bs.
Proof.
  unfold SetBytes. revert acc.
  induction bs as [|b bs IH]; intros acc.
  - simpl. lia.
  - cbn [fold_left length]. rewrite IH, (IH (256 * 0 + Z_of_byte b)).
    rewrite Nat2Z.inj_succ, Z.pow_succ_r by lia. ring.
Qed.

Lemma SetBytes_range (bs : bytes) :
  0 <= SetBytes bs < 256 ^ Z.of_nat (length bs).
Proof.
  induction bs as [|b bs IH].
  - unfold SetBytes. simpl. lia.
  - unfold SetBytes. cbn [fold_left length]. rewrite fold_SetBytes.
    pose proof (Z_of_byte_range b).
    rewrite Nat2Z.inj_succ, Z.pow_succ_r by lia.
    assert (0 < 256 ^ Z.of_nat (length bs)) by (apply Z.pow_pos_nonneg; lia).
    nia.
Qed.

Lemma length_Sum256 (msg : bytes) : length (SHA256.Sum256 msg) = 32%nat.
Proof.
  unfold SHA256.Sum256, SHA256.digest.
  rewrite !length_app, !length_be_bytes. reflexivity.
Qed.

Lemma length_DoubleHashBytes (data : bytes) :
  length (DoubleHashBytes data) = 32%nat.
Proof. apply length_Sum256. Qed.

Lemma shift_amount_small (b : Z) :
  0 <= b <= 256 -> Pow.shift_amount b = 256 - b.
Proof. intros Hb. unfold Pow.shift_amount. apply Z.mod_small. lia. Qed.

Section ProofOfWork.

Import Pow Blockchain.

(** The engine with another in-memory difficulty. *)
Definition with_difficulty (bc : Blockchain) (d : Z) : Blockchain :=
  mkBlockchain (Blocks bc) d (UTXOSet bc) (PendingTxs bc).

(** C4. For every block whose header carries a difficulty bit count
    [b] in [8, 32], the target of the proof-of-work is [2^(256-b)], the
    header hash read big-endian is a 256-bit unsigned integer, and the
    hash is judged valid exactly when that integer is strictly below
    the target; block validation takes the target from the block's own
    field: it rejects a hash at or above it whatever the engine's
    in-memory difficulty is, and its verdict does not depend on that
    difficulty. *)
Theorem pow_validity (block : Block) :
  8 <= DifficultyTarget (Header block) <= 32 ->
  Target (NewProofOfWork block) = 2 ^ (256 - DifficultyTarget (Header block))
  /\ 0 <= SetBytes (HashBlockHeader (Header block)) < 2 ^ 256
  /\ (Validate (NewProofOfWork block) = true <->
      SetBytes (HashBlockHeader (Header block))
      < 2 ^ (256 - DifficultyTarget (Header block)))
  /\ (forall bc now,
        2 ^ (256 - DifficultyTarget (Header block))
        <= SetBytes (HashBlockHeader (Header block)) ->
        ValidateBlock bc now block = Err "invalid proof-of-work")
  /\ (forall bc now d,
        ValidateBlock (with_difficulty bc d) now block
        = ValidateBlock bc now block).
Proof.
  intros Hb.
  assert (Ht : Target (NewProofOfWork block)
               = 2 ^ (256 - DifficultyTarget (Header block))).
  { unfold NewProofOfWork. cbn [Target].
    rewrite shift_amount_small by lia.
    rewrite Z.shiftl_1_l. reflexivity. }
  assert (Hv : Validate (NewProofOfWork block) = true <->
               SetBytes (HashBlockHeader (Header block))
               < 2 ^ (256 - DifficultyTarget (Header block))).
  { unfold Validate, below_target. rewrite Ht.
    cbn [PBlock NewProofOfWork]. apply Z.ltb_lt. }
  split; [exact Ht|].
  split.
  { pose proof (SetBytes_range (HashBlockHeader (Header block))) as Hr.
    unfold HashBlockHeader in *. rewrite length_DoubleHashBytes in Hr.
    change (256 ^ Z.of_nat 32) with (2 ^ 256) in Hr. exact Hr. }
  split; [exact Hv|].
  split.
  - intros bc now Hge. unfold ValidateBlock.
    destruct (Validate (NewProofOfWork block)); [|reflexivity].
    destruct Hv as [Hv _]. specialize (Hv eq_refl). lia.
  - intros bc now d. unfold ValidateBlock, with_difficulty.
    cbn [Blocks]. reflexivity.
Qed.

End ProofOfWork.

Definition sample_block : Block := mkBlock sample_header (Some []) [].

Lemma pow_validity_witness :
  Pow.Target (Pow.NewProofOfWork sample_block) = 2 ^ 240.
Proof.
  refine (proj1 (pow_validity sample_block _)). simpl. lia.
Defined.

(** ** Mining *)

(** The hash the loop of [Mine] computes at a nonce, and whether it is
    below the target. *)
Abbreviation hash_at pow nonce :=
  (HashBlockHeader (with_nonce (Header (Pow.PBlock pow)) nonce)).

Abbreviation tried pow nonce :=
  (Pow.below_target (hash_at pow nonce) (Pow.Target pow)).

Section Mining.

Import Pow.

Variable pow : ProofOfWork.

Lemma mine_loop_step (fuel : nat) (nonce : Z) (hash : bytes) :
  mine_loop (S fuel) pow nonce hash
  = if nonce <? MaxNonce then
      if tried pow nonce then (nonce, hash_at pow nonce)
      else mine_loop fuel pow (nonce + 1) (hash_at pow nonce)
    else (nonce, hash).
Proof. reflexivity. Qed.

Lemma mine_loop_outcome (fuel : nat) :
  forall (nonce : Z) (hash : bytes),
    0 <= nonce ->
    nonce + Z.of_nat fuel = MaxNonce ->
    let r := mine_loop fuel pow nonce hash in
    (nonce <= fst r < MaxNonce
     /\ snd r = hash_at pow (fst r)
     /\ tried pow (fst r) = true
     /\ forall m, nonce <= m < fst r -> tried pow m = false)
    \/
    (fst r = MaxNonce
     /\ snd r = (if nonce =? MaxNonce then hash else hash_at pow (MaxNonce - 1))
     /\ forall m, nonce <= m < MaxNonce -> tried pow m = false).
Proof.
  induction fuel as [|fuel IH]; intros nonce hash Hpos Hfuel.
  - right. cbn [mine_loop fst snd]. rewrite Z.add_0_r in Hfuel. subst nonce.
    rewrite Z.eqb_refl. repeat split. intros m Hm. lia.
  - assert (Hlt : nonce < MaxNonce) by lia.
    rewrite mine_loop_step. apply Z.ltb_lt in Hlt as Hltb. rewrite Hltb.
    destruct (tried pow nonce) eqn:Htry.
    + left. cbn [fst snd].
      repeat split; first [lia | assumption | intros m Hm; lia].
    + destruct (IH (nonce + 1) (hash_at pow nonce)) as [Hfound|Hnone]; [lia|lia|..].
      * left. destruct Hfound as (Hr & Hh & Hv & Hbefore).
        repeat split; try lia; try assumption.
        intros m Hm. destruct (Z.eq_dec m nonce) as [->|Hne]; [exact Htry|].
        apply Hbefore. lia.
      * right. destruct Hnone as (Hr & Hh & Hall).
        split; [exact Hr|]. split.
        -- rewrite Hh. replace (nonce =? MaxNonce) with false
             by (symmetry; apply Z.eqb_neq; lia).
           destruct (nonce + 1 =? MaxNonce) eqn:E; [|reflexivity].
           apply Z.eqb_eq in E.
           replace (MaxNonce - 1) with nonce by lia. reflexivity.
        -- intros m Hm. destruct (Z.eq_dec m nonce) as [->|Hne]; [exact Htry|].
           apply Hall. lia.
Qed.

End Mining.

(** The two ways [Mine] can end. *)
Lemma Mine_cases (pow : Pow.ProofOfWork) :
  (0 <= fst (Pow.Mine pow) < Pow.MaxNonce
   /\ snd (Pow.Mine pow) = hash_at pow (fst (Pow.Mine pow))
   /\ Pow.below_target (snd (Pow.Mine pow)) (Pow.Target pow) = true
   /\ forall m, 0 <= m < fst (Pow.Mine pow) -> tried pow m = false)
  \/
  (fst (Pow.Mine pow) = Pow.MaxNonce
   /\ snd (Pow.Mine pow) = hash_at pow (Pow.MaxNonce - 1)
   /\ Pow.below_target (snd (Pow.Mine pow)) (Pow.Target pow) = false
   /\ forall m, 0 <= m < Pow.MaxNonce -> tried pow m = false).
Proof.
  unfold Pow.Mine.
  assert (Hfuel : 0 + Z.of_nat (Z.to_nat Pow.MaxNonce) = Pow.MaxNonce)
    by (rewrite Z2Nat.id; [reflexivity | discriminate]).
  pose proof (mine_loop_outcome pow (Z.to_nat Pow.MaxNonce) 0 []
                (Z.le_refl 0) Hfuel) as Hout.
  cbv zeta in Hout. clear Hfuel.
  revert Hout.
  generalize (Pow.mine_loop (Z.to_nat Pow.MaxNonce) pow 0 []).
  intros r [(Hr & Hh & Hv & Hbefore)|(Hr & Hh & Hall)].
  - left. split; [exact Hr|]. split; [exact Hh|].
    split; [rewrite Hh; exact Hv | exact Hbefore].
  - right.
    assert (E : (0 =? Pow.MaxNonce) = false) by reflexivity.
    rewrite E in Hh.
    split; [exact Hr|]. split; [exact Hh|]. split; [|exact Hall].
    rewrite Hh. apply Hall. split; [discriminate | reflexivity].
Qed.

(** C5 (what [Mine] does). For every proof-of-work instance, [Mine]
    tries the nonces [0, 1, 2, ...] in order and has exactly two
    outcomes.  Either some nonce below [MaxNonce = 2^32 - 1] gives a hash
    below the target, and [Mine] returns the first such nonce with its
    hash; or none does, and [Mine] returns [MaxNonce] together with the
    hash computed at nonce [MaxNonce - 1], which is not below the target:
    the search is neither widened nor restarted. *)
Theorem Mine_outcome (pow : Pow.ProofOfWork) :
  (0 <= fst (Pow.Mine pow) < Pow.MaxNonce
   /\ snd (Pow.Mine pow) = hash_at pow (fst (Pow.Mine pow))
   /\ Pow.below_target (snd (Pow.Mine pow)) (Pow.Target pow) = true
   /\ forall m, 0 <= m < fst (Pow.Mine pow) -> tried pow m = false)
  \/
  (fst (Pow.Mine pow) = Pow.MaxNonce
   /\ snd (Pow.Mine pow) = hash_at pow (Pow.MaxNonce - 1)
   /\ Pow.below_target (snd (Pow.Mine pow)) (Pow.Target pow) = false
   /\ forall m, 0 <= m < Pow.MaxNonce -> tried pow m = false).
Proof. exact (Mine_cases pow). Qed.

(** When some nonce succeeds, [Mine] returns the first one. *)
Lemma Mine_first (pow : Pow.ProofOfWork) (n : Z) :
  0 <= n < Pow.MaxNonce ->
  tried pow n = true ->
  (forall m, 0 <= m < n -> tried pow m = false) ->
  Pow.Mine pow = (n, hash_at pow n).
Proof.
  intros Hn Hok Hbefore.
  destruct (Mine_cases pow) as [(Hr & Hh & Hv & Hb)|(Hr & Hh & Hv & Hall)].
  - assert (Hfst : fst (Pow.Mine pow) = n).
    { destruct (Z.lt_trichotomy (fst (Pow.Mine pow)) n) as [Hlt|[Heq|Hgt]].
      - rewrite Hh in Hv. rewrite Hbefore in Hv by lia. discriminate Hv.
      - exact Heq.
      - rewrite Hb in Hok by lia. discriminate Hok. }
    rewrite (surjective_pairing (Pow.Mine pow)), Hh, Hfst. reflexivity.
  - rewrite Hall in Hok by lia. discriminate Hok.
Qed.

Lemma forallb_Z_range (P : Z -> bool) (n : nat) :
  forallb P (map Z.of_nat (seq 0 n)) = true ->
  forall m, 0 <= m < Z.of_nat n -> P m = true.
Proof.
  intros Hall m Hm. rewrite forallb_forall in Hall. apply Hall.
  apply in_map_iff. exists (Z.to_nat m). split; [lia|].
  apply in_seq. lia.
Qed.

(** A header at difficulty 8 whose first valid nonce is 11. *)
Definition easy_header : BlockHeader :=
  mkHeader 1 (zero_bytes 32) (zero_bytes 32) (1700000009 * Second) 8 0.

Definition easy_pow : Pow.ProofOfWork :=
  Pow.NewProofOfWork (mkBlock easy_header (Some []) []).

Example Mine_easy_header :
  Pow.Mine easy_pow = (11, hash_at easy_pow 11)
  /\ hex (hash_at easy_pow 11)
     = "003981149cf64f0a0a52e4354dbdf0c501084552d3f2df58d1ecb679173478d4"%string.
Proof.
  split; [|vm_compute; reflexivity].
  apply Mine_first.
  - split; [discriminate | reflexivity].
  - vm_compute. reflexivity.
  - intros m Hm.
    apply (forallb_Z_range (fun m => negb (tried easy_pow m)) 11) in Hm.
    + cbv beta in Hm. apply negb_true_iff in Hm. exact Hm.
    + vm_compute. reflexivity.
Qed.

(** ** The UTXO set *)

Section UtxoProperties.

Import Utxo.

Lemma RemoveUTXO_error_keeps_state (txID : option bytes) (index : Z)
      (u u' : UTXOSet) (e : string) :
  RemoveUTXO txID index u = (Err e, u') -> u' = u.
Proof.
  unfold RemoveUTXO. intros Hrm.
  destruct (UTXOs u !! key txID) as [outputs|]; [|congruence].
  destruct ((index <? 0) || (Z.of_nat (length outputs) <=? index));
    [congruence|].
  destruct (length _ =? 0)%nat; congruence.
Qed.

(** A failure of the removal loop happens at some input, after the
    inputs before it have been removed. *)
Lemma remove_inputs_error (inputs : list TxInput) :
  forall (u u' : UTXOSet) (msg : string),
    remove_inputs inputs u = (Err msg, u') ->
    exists pre input post e,
      inputs = pre ++ input :: post
      /\ remove_inputs pre u = (Ok tt, u')
      /\ RemoveUTXO (TxID input) (OutIndex input) u' = (Err e, u').
Proof.
  induction inputs as [|input rest IH]; intros u u' msg Hrm.
  - discriminate Hrm.
  - cbn [remove_inputs] in Hrm. unfold bind, wrap in Hrm.
    destruct (RemoveUTXO (TxID input) (OutIndex input) u) as [[[]|e] u1] eqn:E.
    + destruct (IH u1 u' msg Hrm) as (pre & i & post & e & Hin & Hpre & Hfail).
      exists (input :: pre), i, post, e. split; [rewrite Hin; reflexivity|].
      split; [|exact Hfail].
      cbn [remove_inputs]. unfold bind, wrap. rewrite E. exact Hpre.
    + injection Hrm as <- <-.
      pose proof (RemoveUTXO_error_keeps_state _ _ _ _ _ E) as ->.
      exists [], input, rest, e. repeat split. exact E.
Qed.

Lemma Update_error (t : Transaction) (u u' : UTXOSet) (msg : string) :
  Update t u = (Err msg, u') ->
  IsCoinbase t = false /\ remove_inputs (Inputs t) u = (Err msg, u').
Proof.
  unfold Update, bind. destruct (IsCoinbase t); cbn [negb].
  - unfold ret, AddUTXO. intros Hup. discriminate Hup.
  - destruct (remove_inputs (Inputs t) u) as [[[]|e] u1].
    + unfold AddUTXO. intros Hup. discriminate Hup.
    + intros [= <- <-]. split; reflexivity.
Qed.

End UtxoProperties.

(** Two outputs of one transaction, as in the repository's own test of
    the set. *)
Definition tx1_id : bytes := list_byte_of_string "tx1".
Definition out_alice : TxOutput := mkTxOutput 100 (list_byte_of_string "alice").
Definition out_bob : TxOutput := mkTxOutput 200 (list_byte_of_string "bob").

Definition utxo_two_outputs : Utxo.UTXOSet :=
  snd (Utxo.AddUTXO tx1_id [out_alice; out_bob] Utxo.NewUTXOSet).

(** A transaction that spends both outputs of [tx1]. *)
Definition spend_both : Transaction :=
  mkTransaction (list_byte_of_string "tx2")
    [ mkTxInput (Some tx1_id) 0 [] []; mkTxInput (Some tx1_id) 1 [] [] ]
    [ mkTxOutput 300 (list_byte_of_string "carol") ].

(** C1, evaluated on the code. With outputs 0 and 1 of a transaction in
    the set, removing output 0 moves the other output down: the key
    [(tx1, 1)] is no longer found and [(tx1, 0)] now answers with what
    was output 1.  A transaction spending both outputs, each under its
    index in [tx1], is therefore refused by [Update] at its second input,
    and none of its outputs is added. *)
Theorem RemoveUTXO_shifts_later_outputs :
  Utxo.FindUTXO utxo_two_outputs (Some tx1_id) 0 = Ok out_alice
  /\ Utxo.FindUTXO utxo_two_outputs (Some tx1_id) 1 = Ok out_bob
  /\ fst (Utxo.RemoveUTXO (Some tx1_id) 0 utxo_two_outputs) = Ok tt
  /\ Utxo.FindUTXO (snd (Utxo.RemoveUTXO (Some tx1_id) 0 utxo_two_outputs))
       (Some tx1_id) 1 = Err "invalid output index"
  /\ Utxo.FindUTXO (snd (Utxo.RemoveUTXO (Some tx1_id) 0 utxo_two_outputs))
       (Some tx1_id) 0 = Ok out_bob
  /\ fst (Utxo.Update spend_both utxo_two_outputs)
     = Err "failed to remove UTXO: invalid output index"
  /\ Utxo.FindUTXO (snd (Utxo.Update spend_both utxo_two_outputs))
       (Some (ID spend_both)) 0 = Err "transaction not found".
Proof. vm_compute. repeat split; reflexivity. Qed.

(** A set holding the single output of [tx1], and a transaction whose
    first input spends it while its second input refers to a transaction
    that is not in the set. *)
Definition utxo_one_output : Utxo.UTXOSet :=
  snd (Utxo.AddUTXO tx1_id [out_alice] Utxo.NewUTXOSet).

Definition spend_then_miss : Transaction :=
  mkTransaction (list_byte_of_string "tx3")
    [ mkTxInput (Some tx1_id) 0 [] [];
      mkTxInput (Some (list_byte_of_string "absent")) 0 [] [] ]
    [ mkTxOutput 100 (list_byte_of_string "carol") ].

(** C2, as stated, fails: [Update] returns an error at the second input
    of [spend_then_miss], and the output spent by the first input is
    gone from the set the caller sees afterwards. *)
Lemma Update_failure_is_not_atomic :
  fst (Utxo.Update spend_then_miss utxo_one_output)
  = Err "failed to remove UTXO: UTXO not found"
  /\ Utxo.FindUTXO utxo_one_output (Some tx1_id) 0 = Ok out_alice
  /\ Utxo.FindUTXO (snd (Utxo.Update spend_then_miss utxo_one_output))
       (Some tx1_id) 0 = Err "transaction not found"
  /\ Utxo.UTXOs (snd (Utxo.Update spend_then_miss utxo_one_output)) = ∅
  /\ Utxo.UTXOs utxo_one_output = {[ Utxo.key (Some tx1_id) := [out_alice] ]}.
Proof. vm_compute. repeat split; reflexivity. Qed.

(** C2, amended. If [Update tx] returns an error on the set [U], then
    [tx] is not a coinbase, the error comes from the removal of one of
    its inputs, and the set after the call is [U] with the inputs before
    that one removed and nothing else changed: no output of [tx] has been
    added, and the failing removal itself changed nothing.  In
    particular the set is unchanged when the failing input is the first
    one. *)
Theorem Update_failure_state (t : Transaction) (u u' : Utxo.UTXOSet)
        (msg : string) :
  Utxo.Update t u = (Err msg, u') ->
  IsCoinbase t = false
  /\ exists pre input post e,
       Inputs t = pre ++ input :: post
       /\ Utxo.remove_inputs pre u = (Ok tt, u')
       /\ Utxo.RemoveUTXO (TxID input) (OutIndex input) u' = (Err e, u')
       /\ (pre = [] -> u' = u).
Proof.
  intros Hup. apply Update_error in Hup as [Hcb Hrm]. split; [exact Hcb|].
  destruct (remove_inputs_error _ _ _ _ Hrm) as (pre & i & post & e & Hin & Hpre & Hfail).
  exists pre, i, post, e. repeat split; try assumption.
  intros ->. cbn [Utxo.remove_inputs] in Hpre. unfold Utxo.ret in Hpre.
  congruence.
Qed.

Lemma Update_failure_state_witness :
  IsCoinbase spend_then_miss = false
  /\ exists pre input post e,
       Inputs spend_then_miss = pre ++ input :: post
       /\ Utxo.remove_inputs pre utxo_one_output
          = (Ok tt, Utxo.mkUTXOSet ∅)
       /\ Utxo.RemoveUTXO (TxID input) (OutIndex input) (Utxo.mkUTXOSet ∅)
          = (Err e, Utxo.mkUTXOSet ∅)
       /\ (pre = [] -> Utxo.mkUTXOSet ∅ = utxo_one_output).
Proof.
  apply (Update_failure_state spend_then_miss utxo_one_output
           (Utxo.mkUTXOSet ∅) "failed to remove UTXO: UTXO not found").
  vm_compute. reflexivity.
Defined.

(** ** Block validation and value conservation *)

(** Value conservation in the words of the specification: the values of
    the outputs a transaction refers to, looked up in the UTXO set, add
    up to at least the values of its own outputs. *)
Definition output_sum (t : Transaction) : Z :=
  fold_right (fun o acc => Value o + acc) 0 (Outputs t).

Fixpoint input_sum (u : Utxo.UTXOSet) (inputs : list TxInput) : option Z :=
  match inputs with
  | [] => Some 0
  | i :: rest =>
      match Utxo.FindUTXO u (TxID i) (OutIndex i), input_sum u rest with
      | Ok o, Some s => Some (Value o + s)
      | _, _ => None
      end
  end.

Definition conserves_value (u : Utxo.UTXOSet) (t : Transaction) : bool :=
  match input_sum u (Inputs t) with
  | Some s => output_sum t <=? s
  | None => false
  end.

(** A chain of one block and a candidate second block.  The candidate
    holds a coinbase and a transaction that spends the 50-coin output of
    the genesis coinbase into an output of 100 coins. *)
Definition coin : Z := 100000000.

Definition genesis_coinbase : Transaction :=
  mkTransaction (DoubleHashBytes (list_byte_of_string "genesis coinbase"))
    [ mkTxInput None (-1) [] (list_byte_of_string "Genesis Block") ]
    [ mkTxOutput (50 * coin) (list_byte_of_string "alice") ].

Definition genesis_header : BlockHeader :=
  mkHeader 1 (zero_bytes 32)
           (Merkle.BuildMerkleRoot [ID genesis_coinbase])
           (1700000000 * Second) 16 4470.

Definition genesis_block : Block :=
  mkBlock genesis_header (Some [genesis_coinbase])
          (HashBlockHeader genesis_header).

Definition one_block_chain : Blockchain.Blockchain :=
  Blockchain.mkBlockchain
    [genesis_block] 16
    (snd (Utxo.AddUTXO (ID genesis_coinbase) (Outputs genesis_coinbase)
                       Utxo.NewUTXOSet))
    [].

Definition block1_coinbase : Transaction :=
  mkTransaction (DoubleHashBytes (list_byte_of_string "block 1 coinbase"))
    [ mkTxInput None (-1) [] (list_byte_of_string "Block 1 reward") ]
    [ mkTxOutput (50 * coin) (list_byte_of_string "miner") ].

Definition overspend : Transaction :=
  mkTransaction (DoubleHashBytes (list_byte_of_string "overspend"))
    [ mkTxInput (Some (ID genesis_coinbase)) 0
                (list_byte_of_string "sig") (list_byte_of_string "pub") ]
    [ mkTxOutput (100 * coin) (list_byte_of_string "mallory") ].

Definition overspend_header : BlockHeader :=
  mkHeader 1 (Hash genesis_block)
           (Merkle.BuildMerkleRoot [ID block1_coinbase; ID overspend])
           (1700000010 * Second) 16 28044.

Definition overspend_block : Block :=
  mkBlock overspend_header (Some [block1_coinbase; overspend])
          (HashBlockHeader overspend_header).

(** C3, as stated, fails: the candidate block passes every rule of
    [ValidateBlock] on top of the one-block chain, although its second
    transaction is not a coinbase and creates 100 coins out of the 50 it
    refers to. *)
Lemma ValidateBlock_accepts_overspend :
  Blockchain.ValidateBlock one_block_chain (1700000020 * Second)
                           overspend_block = Ok tt
  /\ Transactions overspend_block = Some [block1_coinbase; overspend]
  /\ IsCoinbase overspend = false
  /\ input_sum (Blockchain.UTXOSet one_block_chain) (Inputs overspend)
     = Some (50 * coin)
  /\ output_sum overspend = 100 * coin
  /\ conserves_value (Blockchain.UTXOSet one_block_chain) overspend = false
  /\ hex (Hash overspend_block)
     = "00007a13a8f21fdb372b1f6d3e8e1009a11babd03b75f12b7e3c2a58de10d555"%string.
Proof. vm_compute. repeat split; reflexivity. Qed.

Section Validation.

Import Blockchain.

(** A transaction with other outputs, a block whose transactions have
    other outputs, and an engine with another UTXO set. *)
Definition set_outputs (f : Transaction -> list TxOutput) (t : Transaction)
  : Transaction :=
  mkTransaction (ID t) (Inputs t) (f t).

Definition map_block_outputs (f : Transaction -> list TxOutput) (b : Block)
  : Block :=
  mkBlock (Header b) (option_map (map (set_outputs f)) (Transactions b))
          (Hash b).

Definition with_utxo (bc : Blockchain) (u : Utxo.UTXOSet) : Blockchain :=
  mkBlockchain (Blocks bc) (BCDifficultyTarget bc) u (PendingTxs bc).

Lemma second_coinbase_false (rest : list Transaction) :
  second_coinbase rest = false <-> Forall (fun t => IsCoinbase t = false) rest.
Proof.
  induction rest as [|t rest IH]; cbn [second_coinbase].
  - split; [constructor | reflexivity].
  - destruct (IsCoinbase t) eqn:E.
    + split; [intros H; discriminate H|].
      intros H. inversion H; subst. congruence.
    + rewrite IH. split; [intros H; constructor; assumption|].
      intros H. inversion H; subst. assumption.
Qed.

Lemma second_coinbase_set_outputs f (rest : list Transaction) :
  second_coinbase (map (set_outputs f) rest) = second_coinbase rest.
Proof.
  induction rest as [|t rest IH]; [reflexivity|].
  cbn [map second_coinbase]. rewrite IH. reflexivity.
Qed.

Lemma tx_hashes_set_outputs f (txs : list Transaction) :
  tx_hashes (map (set_outputs f) txs) = tx_hashes txs.
Proof.
  unfold tx_hashes. rewrite map_map. reflexivity.
Qed.

Lemma bytes_Equal_true (a b : bytes) : bytes_Equal a b = true <-> a = b.
Proof. unfold bytes_Equal. apply bool_decide_eq_true. Qed.

(** C3, amended. Block validation accepts a block exactly when: the
    header hash is below the target of the block's difficulty field, the
    cached hash is the header hash, the merkle root is that of the
    transaction ids, the previous-hash field is the hash of the tip (on
    a non-empty chain), the timestamp is at most two hours ahead of the
    clock, and the transaction list starts with a coinbase and holds no
    other coinbase.  No rule reads an output value or the UTXO set: the
    verdict is the same whatever the outputs of the block's transactions
    and whatever the UTXO set, so value conservation is not enforced by
    block validation. *)
Theorem ValidateBlock_rules (bc : Blockchain) (now : Time) (block : Block) :
  (ValidateBlock bc now block = Ok tt <->
     Pow.Validate (Pow.NewProofOfWork block) = true
     /\ HashBlockHeader (Header block) = Hash block
     /\ exists first rest,
          Transactions block = Some (first :: rest)
          /\ Merkle.BuildMerkleRoot (map ID (first :: rest))
             = MerkleRoot (Header block)
          /\ (forall prev, last (Blocks bc) = Some prev ->
                PrevBlockHash (Header block) = Hash prev)
          /\ Timestamp (Header block) <= now + 2 * Hour
          /\ IsCoinbase first = true
          /\ Forall (fun t => IsCoinbase t = false) rest)
  /\ (forall f u,
        ValidateBlock (with_utxo bc u) now (map_block_outputs f block)
        = ValidateBlock bc now block).
Proof.
  split.
  - unfold ValidateBlock.
    destruct (Pow.Validate (Pow.NewProofOfWork block));
      cbn [negb]; [|split; [intros H; discriminate H | intros (H & _); discriminate H]].
    destruct (bytes_Equal (HashBlockHeader (Header block)) (Hash block)) eqn:Eh;
      cbn [negb].
    2:{ split; [intros H; discriminate H|]. intros (_ & H & _).
        apply bytes_Equal_true in H. congruence. }
    apply bytes_Equal_true in Eh.
    destruct (Transactions block) as [txs|].
    2:{ split; [intros H; discriminate H|].
        intros (_ & _ & first & rest & H & _). discriminate H. }
    destruct (bytes_Equal (Merkle.BuildMerkleRoot (tx_hashes txs))
                          (MerkleRoot (Header block))) eqn:Em; cbn [negb].
    2:{ split; [intros H; discriminate H|].
        intros (_ & _ & first & rest & [= ->] & H & _).
        apply bytes_Equal_true in H. unfold tx_hashes in Em. congruence. }
    apply bytes_Equal_true in Em.
    destruct (last (Blocks bc)) as [prev|] eqn:El.
    + destruct (bytes_Equal (PrevBlockHash (Header block)) (Hash prev)) eqn:Ep;
        cbn [negb].
      2:{ split; [intros H; discriminate H|].
          intros (_ & _ & first & rest & _ & _ & H & _).
          specialize (H prev eq_refl). apply bytes_Equal_true in H. congruence. }
      apply bytes_Equal_true in Ep.
      unfold After, Add.
      destruct (now + 2 * Hour <? Timestamp (Header block)) eqn:Et.
      { split; [intros H; discriminate H|].
        intros (_ & _ & first & rest & _ & _ & _ & H & _).
        apply Z.ltb_lt in Et. lia. }
      apply Z.ltb_ge in Et.
      destruct txs as [|first rest].
      { split; [intros H; discriminate H|].
        intros (_ & _ & first & rest & H & _). discriminate H. }
      destruct (IsCoinbase first) eqn:Ec; cbn [negb].
      2:{ split; [intros H; discriminate H|].
          intros (_ & _ & first' & rest' & [= <- <-] & _ & _ & _ & H & _).
          congruence. }
      destruct (second_coinbase rest) eqn:Es.
      { split; [intros H; discriminate H|].
        intros (_ & _ & first' & rest' & [= <- <-] & _ & _ & _ & _ & H).
        apply second_coinbase_false in H. congruence. }
      split; [|reflexivity]. intros _.
      split; [reflexivity|]. split; [exact Eh|].
      exists first, rest. split; [reflexivity|]. split; [exact Em|].
      split; [intros prev' [= <-]; exact Ep|]. split; [exact Et|].
      split; [exact Ec|]. apply second_coinbase_false, Es.
    + unfold After, Add.
      destruct (now + 2 * Hour <? Timestamp (Header block)) eqn:Et.
      { split; [intros H; discriminate H|].
        intros (_ & _ & first & rest & _ & _ & _ & H & _).
        apply Z.ltb_lt in Et. lia. }
      apply Z.ltb_ge in Et.
      destruct txs as [|first rest].
      { split; [intros H; discriminate H|].
        intros (_ & _ & first & rest & H & _). discriminate H. }
      destruct (IsCoinbase first) eqn:Ec; cbn [negb].
      2:{ split; [intros H; discriminate H|].
          intros (_ & _ & first' & rest' & [= <- <-] & _ & _ & _ & H & _).
          congruence. }
      destruct (second_coinbase rest) eqn:Es.
      { split; [intros H; discriminate H|].
        intros (_ & _ & first' & rest' & [= <- <-] & _ & _ & _ & _ & H).
        apply second_coinbase_false in H. congruence. }
      split; [|reflexivity]. intros _.
      split; [reflexivity|]. split; [exact Eh|].
      exists first, rest. split; [reflexivity|]. split; [exact Em|].
      split; [intros prev' H; discriminate H|]. split; [exact Et|].
      split; [exact Ec|]. apply second_coinbase_false, Es.
  - intros f u. unfold ValidateBlock, with_utxo, map_block_outputs.
    cbn [Blocks Header Hash Transactions].
    unfold Pow.Validate, Pow.NewProofOfWork. cbn [Pow.PBlock Pow.Target Header].
    destruct (Transactions block) as [txs|]; cbn [option_map]; [|reflexivity].
    rewrite tx_hashes_set_outputs.
    destruct txs as [|first rest]; [reflexivity|].
    cbn [map]. rewrite second_coinbase_set_outputs. reflexivity.
Qed.

End Validation.

(** ** Addresses (package [crypto], file wallet.go) *)

(** [big.Int.Bytes]: the minimal big-endian encoding of a non-negative
    integer; zero has the empty encoding. *)
Definition byte_length (v : Z) : nat :=
  if v <=? 0 then O else Z.to_nat (Z.log2 v / 8 + 1).

Definition big_Bytes (v : Z) : bytes := be_bytes (byte_length v) v.

(** Base58 with the Bitcoin alphabet, as the imported package
    [github.com/mr-tron/base58] decodes and encodes it. *)
Module Base58.

Definition alphabet : list ascii :=
  list_ascii_of_string
    "123456789ABCDEFGHJKLMNPQRSTUVWXYZabcdefghijkmnopqrstuvwxyz".

Fixpoint index_of (c : ascii) (l : list ascii) (i : Z) : option Z :=
  match l with
  | [] => None
  | a :: l' => if Ascii.eqb a c then Some i else index_of c l' (i + 1)
  end.

(** The digits of a string, most significant first, folded into their
    value; a character above 127 or outside the alphabet is an error. *)
Fixpoint value (s : string) (acc : Z) : result Z :=
  match s with
  | EmptyString => Ok acc
  | String c s' =>
      if (127 <? Z.of_N (N_of_ascii c)) then
        Err "high-bit set on invalid digit"
      else
        match index_of c alphabet 0 with
        | None => Err "invalid base58 digit"
        | Some d => value s' (58 * acc + d)
        end
  end.

(** The number of leading ['1'] characters, each standing for a zero
    byte. *)
Fixpoint zcount (s : string) : nat :=
  match s with
  | String "1"%char s' => S (zcount s')
  | _ => O
  end.

Definition Decode (str : string) : result bytes :=
  match str with
  | EmptyString => Err "zero length string"
  | _ =>
      match value str 0 with
      | Err e => Err e
      | Ok v => Ok (zero_bytes (zcount str) ++ big_Bytes v)
      end
  end.

Fixpoint digits (fuel : nat) (v : Z) (acc : list ascii) : list ascii :=
  match fuel with
  | O => acc
  | S fuel' =>
      if v <=? 0 then acc
      else digits fuel' (v / 58) (nth (Z.to_nat (v mod 58)) alphabet "1"%char :: acc)
  end.

Fixpoint leading_zeros (bs : bytes) : nat :=
  match bs with
  | x00 :: bs' => S (leading_zeros bs')
  | _ => O
  end.

Definition Encode (bin : bytes) : string :=
  string_of_list_ascii
    (repeat "1"%char (leading_zeros bin)
     ++ digits (2 * length bin) (SetBytes bin) []).

End Base58.

Definition AddressVersion : byte := x00.
Definition ChecksumLength : nat := 4.

(** [Checksum]: the first four bytes of the double SHA-256. *)
Definition Checksum (payload : bytes) : bytes :=
  let firstHash := SHA256.Sum256 payload in
  let secondHash := SHA256.Sum256 firstHash in
  take ChecksumLength secondHash.

(** [EncodeAddress]. *)
Definition EncodeAddress (pubKeyHash : bytes) : string :=
  let versionedPayload := AddressVersion :: pubKeyHash in
  let checksum := Checksum versionedPayload in
  let fullPayload := versionedPayload ++ checksum in
  Base58.Encode fullPayload.

(** [DecodeAddress]. *)
Definition DecodeAddress (address : string) : result bytes :=
  match Base58.Decode address with
  | Err e => Err ("failed to decode address: " ++ e)
  | Ok decoded =>
      if (length decoded <? ChecksumLength + 1)%nat then
        Err "invalid address length"
      else
        let payload := take (length decoded - ChecksumLength) decoded in
        let checksumProvided := drop (length decoded - ChecksumLength) decoded in
        let checksumCalculated := Checksum payload in
        if negb (bytes_Equal checksumCalculated checksumProvided) then
          Err "invalid address checksum"
        else
          let pubKeyHash := drop 1 payload in
          Ok pubKeyHash
  end.

Example EncodeAddress_zero_hash :
  EncodeAddress (zero_bytes 20) = "1111111111111111111114oLvT2"%string
  /\ DecodeAddress "1111111111111111111114oLvT2" = Ok (zero_bytes 20).
Proof. vm_compute. split; reflexivity. Qed.

(** C8, as stated, fails: the string [1Wh4bh] decodes to the five
    bytes [00 14 06 e0 58], a version byte followed by its own checksum;
    it is shorter than 25 bytes, yet [DecodeAddress] returns without an
    error, and what it returns is the empty byte string, not a 20-byte
    hash. *)
Lemma DecodeAddress_accepts_short_input :
  (exists decoded,
     Base58.Decode "1Wh4bh" = Ok decoded
     /\ hex decoded = "001406e058"%string
     /\ (length decoded < 25)%nat)
  /\ DecodeAddress "1Wh4bh" = Ok []
  /\ DecodeAddress "12EvcEd4M2bV5Y" = Ok (list_byte_of_string "alice").
Proof.
  split; [eexists; vm_compute; repeat split; lia|].
  vm_compute. split; reflexivity.
Qed.

Lemma length_Checksum (payload : bytes) : length (Checksum payload) = 4%nat.
Proof.
  unfold Checksum, ChecksumLength. rewrite length_take, length_Sum256.
  reflexivity.
Qed.

Lemma DecodeAddress_ok_iff (address : string) (h : bytes) :
  DecodeAddress address = Ok h <->
  exists v, Base58.Decode address = Ok (v :: h ++ Checksum (v :: h)).
Proof.
  unfold DecodeAddress. split.
  - destruct (Base58.Decode address) as [decoded|e]; [|intros H; discriminate H].
    destruct (length decoded <? ChecksumLength + 1)%nat eqn:Hlen;
      [intros H; discriminate H|].
    apply Nat.ltb_ge in Hlen. unfold ChecksumLength in *.
    destruct (bytes_Equal _ _) eqn:Hsum; cbn [negb]; [|intros H; discriminate H].
    apply bytes_Equal_true in Hsum. intros [= <-].
    destruct (take (length decoded - 4) decoded) as [|v payload] eqn:Hpay.
    { apply (f_equal length) in Hpay. rewrite length_take in Hpay.
      simpl in Hpay. lia. }
    exists v. cbn [skipn]. rewrite drop_0, Hsum. f_equal.
    change (v :: payload ++ drop (length decoded - 4) decoded)
      with ((v :: payload) ++ drop (length decoded - 4) decoded).
    rewrite <- Hpay. symmetry. apply take_drop.
  - intros [v Hdec]. rewrite Hdec.
    set (payload := v :: h).
    assert (Hlen : length (v :: h ++ Checksum payload)
                   = (length payload + 4)%nat).
    { change (v :: h ++ Checksum payload) with (payload ++ Checksum payload).
      rewrite length_app, length_Checksum. reflexivity. }
    rewrite Hlen. unfold ChecksumLength.
    replace (length payload + 4 <? 4 + 1)%nat with false
      by (symmetry; apply Nat.ltb_ge; subst payload; simpl; lia).
    replace (length payload + 4 - 4)%nat with (length payload) by lia.
    change (v :: h ++ Checksum payload) with (payload ++ Checksum payload).
    rewrite take_app_length, drop_app_length.
    replace (bytes_Equal (Checksum payload) (Checksum payload)) with true
      by (symmetry; apply bytes_Equal_true; reflexivity).
    reflexivity.
Qed.

(** C8, amended. Address decoding fails with an error for every input
    whose base58 decoding fails, for every input whose decoded byte
    length is shorter than 5 (1 version byte + 4 checksum bytes), and for
    every input whose trailing 4-byte checksum differs from the first 4
    bytes of the double SHA-256 of the preceding bytes.  It succeeds on
    exactly the inputs that decode to a first byte, a byte string [h] and
    the checksum of the two, and then returns [h], which is 5 bytes
    shorter than the decoded input: the 20-byte pubkey hash when the
    input decodes to 25 bytes. *)
Theorem DecodeAddress_outcomes (address : string) :
  (forall e, Base58.Decode address = Err e ->
     DecodeAddress address = Err ("failed to decode address: " ++ e))
  /\ (forall decoded, Base58.Decode address = Ok decoded ->
        (length decoded < 5)%nat ->
        DecodeAddress address = Err "invalid address length")
  /\ (forall decoded, Base58.Decode address = Ok decoded ->
        (5 <= length decoded)%nat ->
        Checksum (take (length decoded - 4) decoded)
          <> drop (length decoded - 4) decoded ->
        DecodeAddress address = Err "invalid address checksum")
  /\ (forall h, DecodeAddress address = Ok h <->
        exists v, Base58.Decode address = Ok (v :: h ++ Checksum (v :: h)))
  /\ (forall h decoded,
        DecodeAddress address = Ok h ->
        Base58.Decode address = Ok decoded ->
        length decoded = (length h + 5)%nat
        /\ (length decoded = 25%nat -> length h = 20%nat)).
Proof.
  split; [|split; [|split; [|split]]].
  - intros e He. unfold DecodeAddress. rewrite He. reflexivity.
  - intros decoded Hd Hlen. unfold DecodeAddress. rewrite Hd.
    replace (length decoded <? ChecksumLength + 1)%nat with true
      by (symmetry; apply Nat.ltb_lt; unfold ChecksumLength; lia).
    reflexivity.
  - intros decoded Hd Hlen Hsum. unfold DecodeAddress. rewrite Hd.
    replace (length decoded <? ChecksumLength + 1)%nat with false
      by (symmetry; apply Nat.ltb_ge; unfold ChecksumLength; lia).
    unfold ChecksumLength.
    destruct (bytes_Equal _ _) eqn:E; [|reflexivity].
    apply bytes_Equal_true in E. contradiction.
  - intros h. apply DecodeAddress_ok_iff.
  - intros h decoded Hok Hd.
    apply DecodeAddress_ok_iff in Hok as [v Hv].
    rewrite Hd in Hv. injection Hv as ->.
    assert (Hlen : length (v :: h ++ Checksum (v :: h)) = (length h + 5)%nat).
    { cbn [length]. rewrite length_app, length_Checksum. lia. }
    split; [exact Hlen|]. rewrite Hlen. lia.
Qed.

(** ** Signatures (package [crypto], file wallet.go)

    The curve and ECDSA come from imported packages ([btcec.S256],
    [crypto/ecdsa], [crypto/elliptic]); they are written out here, in
    their textbook form, so that [Sign] and [VerifySignature] can be
    evaluated on a concrete key. *)

Module Secp256k1.

Definition P : Z := 2 ^ 256 - 2 ^ 32 - 977.
Definition N : Z :=
  0xFFFFFFFFFFFFFFFFFFFFFFFFFFFFFFFEBAAEDCE6AF48A03BBFD25E8CD0364141.
Definition Gx : Z :=
  0x79BE667EF9DCBBAC55A06295CE870B07029BFCDB2DCE28D959F2815B16F81798.
Definition Gy : Z :=
  0x483ADA7726A3C4655DA4FBFC0E1108A8FD17B448A68554199C47D08FFB10D4B8.

(** Arithmetic modulo [P] on representatives in [0, P).  A product is
    reduced by folding its high 256 bits twice, using
    [2^256 = 2^32 + 977 (mod P)]. *)
Definition low256 (x : Z) : Z := Z.land x (2 ^ 256 - 1).

Definition reduce (x : Z) : Z :=
  let x1 := low256 x + (2 ^ 32 + 977) * Z.shiftr x 256 in
  let x2 := low256 x1 + (2 ^ 32 + 977) * Z.shiftr x1 256 in
  if x2 <? P then x2 else x2 - P.

Definition fadd (a b : Z) : Z := let s := a + b in if s <? P then s else s - P.
Definition fsub (a b : Z) : Z := if b <=? a then a - b else a + P - b.
Definition fmul (a b : Z) : Z := reduce (a * b).

(** Modular inverse by the extended Euclidean algorithm
    ([big.Int.ModInverse]); [fuel] bounds the number of divisions. *)
Fixpoint egcd (fuel : nat) (a b x0 x1 : Z) : Z :=
  match fuel with
  | O => x0
  | S fuel' =>
      if b =? 0 then x0
      else let q := a / b in egcd fuel' b (a - q * b) x1 (x0 - q * x1)
  end.

Definition inverse (a m : Z) : Z := egcd 600 (a mod m) m 1 0 mod m.

(** Points in Jacobian coordinates; [Z = 0] is the point at infinity. *)
Record point := Point { PX : Z; PY : Z; PZ : Z }.

Definition infinity : point := Point 1 1 0.
Definition G : point := Point Gx Gy 1.

Definition double (p : point) : point :=
  if (PZ p =? 0) || (PY p =? 0) then infinity
  else
    let a := fmul (PX p) (PX p) in
    let b := fmul (PY p) (PY p) in
    let c := fmul b b in
    let xb := fadd (PX p) b in
    let d0 := fsub (fsub (fmul xb xb) a) c in
    let d := fadd d0 d0 in
    let e := fadd (fadd a a) a in
    let f := fmul e e in
    let x3 := fsub f (fadd d d) in
    let c2 := fadd c c in
    let c4 := fadd c2 c2 in
    let c8 := fadd c4 c4 in
    let y3 := fsub (fmul e (fsub d x3)) c8 in
    let yz := fmul (PY p) (PZ p) in
    Point x3 y3 (fadd yz yz).

Definition add (p q : point) : point :=
  if PZ p =? 0 then q
  else if PZ q =? 0 then p
  else
    let z1z1 := fmul (PZ p) (PZ p) in
    let z2z2 := fmul (PZ q) (PZ q) in
    let u1 := fmul (PX p) z2z2 in
    let u2 := fmul (PX q) z1z1 in
    let s1 := fmul (PY p) (fmul (PZ q) z2z2) in
    let s2 := fmul (PY q) (fmul (PZ p) z1z1) in
    if u1 =? u2 then
      if s1 =? s2 then double p else infinity
    else
      let h := fsub u2 u1 in
      let r := fsub s2 s1 in
      let hh := fmul h h in
      let hhh := fmul h hh in
      let v := fmul u1 hh in
      let x3 := fsub (fsub (fmul r r) hhh) (fadd v v) in
      let y3 := fsub (fmul r (fsub v x3)) (fmul s1 hhh) in
      Point x3 y3 (fmul h (fmul (PZ p) (PZ q))).

Fixpoint mul_pos (k : positive) (p : point) : point :=
  match k with
  | xH => p
  | xO k' => double (mul_pos k' p)
  | xI k' => add (double (mul_pos k' p)) p
  end.

Definition scalar_mult (k : Z) (p : point) : point :=
  match k with
  | Zpos k' => mul_pos k' p
  | _ => infinity
  end.

(** Affine coordinates; [None] is the point at infinity. *)
Definition to_affine (p : point) : option (Z * Z) :=
  if PZ p =? 0 then None
  else
    let zi := inverse (PZ p) P in
    let zi2 := fmul zi zi in
    Some (fmul (PX p) zi2, fmul (PY p) (fmul zi zi2)).

Definition of_affine (x y : Z) : point := Point x y 1.

(** [curve.IsOnCurve]. *)
Definition IsOnCurve (x y : Z) : bool :=
  fmul y y =? fadd (fmul x (fmul x x)) 7.

End Secp256k1.

Module ECDSA.

Import Secp256k1.

(** [ScalarBaseMult] followed by the private-key-to-public-key step of
    [ecdsa.GenerateKey]. *)
Definition public_key (d : Z) : option (Z * Z) :=
  to_affine (scalar_mult d G).

(** [ecdsa.Sign] with the nonce [k] it draws from the random source: a
    nonce that gives [r = 0] or [s = 0] is drawn again by the library,
    which is [None] here. *)
Definition sign (k d : Z) (hash : bytes) : option (Z * Z) :=
  match to_affine (scalar_mult k G) with
  | None => None
  | Some (x, _) =>
      let r := x mod N in
      if r =? 0 then None
      else
        let e := SetBytes hash in
        let s := (inverse k N * (e + r * d)) mod N in
        if s =? 0 then None else Some (r, s)
  end.

(** [ecdsa.Verify]. *)
Definition verify (pub : Z * Z) (hash : bytes) (r s : Z) : bool :=
  if (r <=? 0) || (s <=? 0) || (N <=? r) || (N <=? s) then false
  else
    let e := SetBytes hash in
    let w := inverse s N in
    let u1 := (e * w) mod N in
    let u2 := (r * w) mod N in
    let sum := add (scalar_mult u1 G)
                   (scalar_mult u2 (of_affine (fst pub) (snd pub))) in
    match to_affine sum with
    | None => false
    | Some (x, _) => x mod N =? r
    end.

(** [elliptic.Marshal] and [elliptic.Unmarshal] (uncompressed form). *)
Definition Marshal (pub : Z * Z) : bytes :=
  x04 :: be_bytes 32 (fst pub) ++ be_bytes 32 (snd pub).

Definition Unmarshal (data : bytes) : option (Z * Z) :=
  match data with
  | x04 :: rest =>
      if negb (length rest =? 64)%nat then None
      else
        let x := SetBytes (take 32 rest) in
        let y := SetBytes (drop 32 rest) in
        if (P <=? x) || (P <=? y) then None
        else if negb (IsOnCurve x y) then None
        else Some (x, y)
  | _ => None
  end.

End ECDSA.

Record Wallet := mkWallet {
  PrivateKey : Z;        (* the scalar D of the *ecdsa.PrivateKey *)
  PublicKey : bytes
}.

(** [NewWallet], with the private scalar that [GenerateKeyPair] draws. *)
Definition NewWallet (d : Z) : result Wallet :=
  match ECDSA.public_key d with
  | Some pub => Ok (mkWallet d (ECDSA.Marshal pub))
  | None => Err "failed to generate key pair"
  end.

(** [Wallet.Sign]; [k] is the nonce drawn by [ecdsa.Sign].  The
    signature is [append(r.Bytes(), s.Bytes()...)]. *)
Definition Sign (w : Wallet) (k : Z) (message : bytes) : result bytes :=
  let hash := SHA256.Sum256 message in
  match ECDSA.sign k (PrivateKey w) hash with
  | None => Err "failed to sign"
  | Some (r, s) =>
      let signature := big_Bytes r ++ big_Bytes s in
      Ok signature
  end.

(** [VerifySignature]. *)
Definition VerifySignature (pubKey message signature : bytes) : bool :=
  let hash := SHA256.Sum256 message in
  match ECDSA.Unmarshal pubKey with
  | None => false
  | Some publicKey =>
      if (length signature <? 32)%nat then false
      else
        let r := SetBytes (take (length signature / 2) signature) in
        let s := SetBytes (drop (length signature / 2) signature) in
        ECDSA.verify publicKey hash r s
  end.

(** A key pair, a message and a nonce for which the scalar [s] of the
    signature has a leading zero byte. *)
Definition alice_key : Z := 123456789.
Definition payment : bytes := list_byte_of_string "pay bob 10".
Definition unlucky_nonce : Z := 410.

Definition alice_wallet :=
  Eval vm_compute in
    match NewWallet alice_key with
    | Ok w => w
    | Err _ => mkWallet 0 []
    end.

Definition unlucky_rs :=
  Eval vm_compute in
    match ECDSA.sign unlucky_nonce alice_key (SHA256.Sum256 payment) with
    | Some rs => rs
    | None => (0, 0)
    end.

Definition unlucky_signature :=
  Eval vm_compute in big_Bytes (fst unlucky_rs) ++ big_Bytes (snd unlucky_rs).

(** C7, evaluated on the code. For the wallet of [alice_key] and the
    message [payment], the signature made with nonce 410 has a 32-byte
    [r] and a 31-byte [s]; [Sign] concatenates the two without padding,
    which gives 63 bytes, [VerifySignature] cuts them after byte 31, and
    verification of the wallet's own signature returns false, although
    the pair [(r, s)] itself satisfies the ECDSA equation for the
    wallet's public key. *)
Theorem Sign_then_Verify_can_fail :
  NewWallet alice_key = Ok alice_wallet
  /\ ECDSA.sign unlucky_nonce (PrivateKey alice_wallet)
                (SHA256.Sum256 payment) = Some unlucky_rs
  /\ byte_length (fst unlucky_rs) = 32%nat
  /\ byte_length (snd unlucky_rs) = 31%nat
  /\ Sign alice_wallet unlucky_nonce payment = Ok unlucky_signature
  /\ length unlucky_signature = 63%nat
  /\ (exists pub,
        ECDSA.Unmarshal (PublicKey alice_wallet) = Some pub
        /\ ECDSA.verify pub (SHA256.Sum256 payment)
                        (fst unlucky_rs) (snd unlucky_rs) = true)
  /\ VerifySignature (PublicKey alice_wallet) payment unlucky_signature
     = false.
Proof.
  split; [vm_compute; reflexivity|].
  split; [vm_compute; reflexivity|].
  split; [vm_compute; reflexivity|].
  split; [vm_compute; reflexivity|].
  split; [vm_compute; reflexivity|].
  split; [vm_compute; reflexivity|].
  split; [|vm_cast_no_check (@eq_refl bool false)].
  exists (SetBytes (take 32 (drop 1 (PublicKey alice_wallet))),
          SetBytes (drop 33 (PublicKey alice_wallet))).
  split; [vm_compute; reflexivity | vm_cast_no_check (@eq_refl bool true)].
Qed.

(** * Further properties of the code *)

(** ** The UTXO set: insertion, lookup and removal *)

Section UtxoLookup.

Import Utxo.

(** What [FindUTXO] finds, without the error message. *)
Definition found (u : UTXOSet) (txID : option bytes) (index : Z)
  : option TxOutput :=
  match FindUTXO u txID index with
  | Ok o => Some o
  | Err _ => None
  end.

Lemma key_Some_inj (a b : bytes) : key (Some a) = key (Some b) -> a = b.
Proof.
  cbn [key]. intros H. apply (f_equal list_byte_of_string) in H.
  now rewrite !list_byte_of_string_of_list_byte in H.
Qed.

Lemma FindUTXO_entry (u : UTXOSet) (txID : option bytes) (index : Z)
      (outputs : list TxOutput) :
  UTXOs u !! key txID = Some outputs ->
  found u txID index
  = if index <? 0 then None else outputs !! Z.to_nat index.
Proof.
  intros Hent. unfold found, FindUTXO. rewrite Hent.
  destruct (index <? 0) eqn:Hneg; [reflexivity|]. cbn [orb].
  apply Z.ltb_ge in Hneg.
  destruct (Z.of_nat (length outputs) <=? index) eqn:Hlen.
  - apply Z.leb_le in Hlen. symmetry. apply lookup_ge_None. lia.
  - destruct (outputs !! Z.to_nat index); reflexivity.
Qed.

Lemma FindUTXO_no_entry (u : UTXOSet) (txID : option bytes) (index : Z) :
  UTXOs u !! key txID = None -> found u txID index = None.
Proof. intros Hent. unfold found, FindUTXO. now rewrite Hent. Qed.

Lemma AddUTXO_lookup (u : UTXOSet) (txID : bytes) (outputs : list TxOutput)
      (i : Z) (o : TxOutput) :
  FindUTXO (snd (AddUTXO txID outputs u)) (Some txID) i = Ok o
  <-> 0 <= i /\ outputs !! Z.to_nat i = Some o.
Proof.
  unfold AddUTXO, FindUTXO. cbn [snd UTXOs].
  rewrite lookup_insert_eq.
  destruct (i <? 0) eqn:Hneg; cbn [orb].
  { apply Z.ltb_lt in Hneg. split; [intros H; discriminate H | lia]. }
  apply Z.ltb_ge in Hneg.
  destruct (Z.of_nat (length outputs) <=? i) eqn:Hlen.
  { apply Z.leb_le in Hlen. split; [intros H; discriminate H|].
    intros [_ Hsome]. apply lookup_lt_Some in Hsome. lia. }
  destruct (outputs !! Z.to_nat i) as [o'|].
  + split; [intros [= ->]; split; [lia | reflexivity]|].
    intros [_ [= ->]]. reflexivity.
  + split; [intros H; discriminate H | intros [_ H]; discriminate H].
Qed.

(** X1. [AddUTXO] never fails; afterwards the key [(txID, i)] finds
    exactly the [i]-th of the outputs just stored (whatever the set held
    for [txID] before is replaced), and the entries of every other
    transaction id are as before. *)
Theorem AddUTXO_then_FindUTXO (u : UTXOSet) (txID : bytes)
        (outputs : list TxOutput) :
  fst (AddUTXO txID outputs u) = Ok tt
  /\ (forall i o,
        FindUTXO (snd (AddUTXO txID outputs u)) (Some txID) i = Ok o
        <-> 0 <= i /\ outputs !! Z.to_nat i = Some o)
  /\ (forall other i,
        other <> txID ->
        FindUTXO (snd (AddUTXO txID outputs u)) (Some other) i
        = FindUTXO u (Some other) i).
Proof.
  split; [reflexivity|]. split.
  - intros i o. apply AddUTXO_lookup.
  - intros other i Hne. unfold AddUTXO, FindUTXO. cbn [snd UTXOs].
    rewrite lookup_insert_ne; [reflexivity|].
    intros Hk. apply key_Some_inj in Hk. congruence.
Qed.

(** X2. [RemoveUTXO] succeeds exactly when [FindUTXO] finds the key; a
    failed removal leaves the set as it was.  After a successful removal
    of [(txID, index)] the outputs of [txID] below [index] keep their
    key and every later output answers under the key one lower (the
    entry disappears with its last output); other transaction ids are
    untouched. *)
Theorem RemoveUTXO_effect (u : UTXOSet) (txID : option bytes) (index : Z) :
  is_ok (fst (RemoveUTXO txID index u)) = is_ok (FindUTXO u txID index)
  /\ (is_ok (fst (RemoveUTXO txID index u)) = false ->
      snd (RemoveUTXO txID index u) = u)
  /\ (is_ok (fst (RemoveUTXO txID index u)) = true ->
      forall j,
        found (snd (RemoveUTXO txID index u)) txID j
        = found u txID (if j <? index then j else j + 1))
  /\ (forall other j,
        key other <> key txID ->
        FindUTXO (snd (RemoveUTXO txID index u)) other j
        = FindUTXO u other j).
Proof.
  destruct (UTXOs u !! key txID) as [outputs|] eqn:Hent.
  2:{ unfold RemoveUTXO, FindUTXO. rewrite Hent. cbn [fst snd is_ok].
      repeat split; try reflexivity. intros H; discriminate H. }
  destruct ((index <? 0) || (Z.of_nat (length outputs) <=? index)) eqn:Hrange.
  { unfold RemoveUTXO, FindUTXO. rewrite Hent, Hrange. cbn [fst snd is_ok].
    repeat split; try reflexivity. intros H; discriminate H. }
  apply orb_false_iff in Hrange as [Hneg Hlen].
  apply Z.ltb_ge in Hneg. apply Z.leb_gt in Hlen.
  set (rest := take (Z.to_nat index) outputs
               ++ drop (Z.to_nat index + 1) outputs).
  assert (Hrest : forall j : Z, 0 <= j ->
            rest !! Z.to_nat j
            = outputs !! Z.to_nat (if j <? index then j else j + 1)).
  { intros j Hj. subst rest. destruct (j <? index) eqn:Hji.
    - apply Z.ltb_lt in Hji. rewrite lookup_app_l by (rewrite length_take; lia).
      apply lookup_take_lt. lia.
    - apply Z.ltb_ge in Hji.
      rewrite lookup_app_r by (rewrite length_take; lia).
      rewrite length_take, lookup_drop. f_equal. lia. }
  assert (Hrm : RemoveUTXO txID index u
                = (Ok tt,
                   mkUTXOSet (if (length rest =? 0)%nat
                              then delete (key txID) (UTXOs u)
                              else <[key txID := rest]> (UTXOs u)))).
  { unfold RemoveUTXO. rewrite Hent.
    replace ((index <? 0) || (Z.of_nat (length outputs) <=? index)) with false
      by (symmetry; apply orb_false_iff; split;
          [apply Z.ltb_ge | apply Z.leb_gt]; lia).
    fold rest. destruct (length rest =? 0)%nat; reflexivity. }
  rewrite Hrm. cbn [fst snd is_ok].
  split.
  { unfold FindUTXO. rewrite Hent.
    replace ((index <? 0) || (Z.of_nat (length outputs) <=? index)) with false
      by (symmetry; apply orb_false_iff; split;
          [apply Z.ltb_ge | apply Z.leb_gt]; lia).
    destruct (lookup_lt_is_Some_2 outputs (Z.to_nat index)) as [o ->]; [lia|].
    reflexivity. }
  split; [intros H; discriminate H|].
  split.
  - intros _ j. rewrite (FindUTXO_entry u txID _ outputs Hent).
    destruct (length rest =? 0)%nat eqn:Hempty.
    + rewrite FindUTXO_no_entry by (cbn [UTXOs]; apply lookup_delete_eq).
      apply Nat.eqb_eq in Hempty.
      destruct (j <? 0) eqn:Hj.
      * apply Z.ltb_lt in Hj as Hj'.
        replace (j <? index) with true by (symmetry; apply Z.ltb_lt; lia).
        rewrite Hj. reflexivity.
      * apply Z.ltb_ge in Hj. rewrite <- (Hrest j Hj).
        replace ((if j <? index then j else j + 1) <? 0) with false
          by (symmetry; apply Z.ltb_ge; destruct (j <? index); lia).
        symmetry. apply lookup_ge_None. lia.
    + rewrite (FindUTXO_entry _ txID j rest)
        by (cbn [UTXOs]; apply lookup_insert_eq).
      destruct (j <? 0) eqn:Hj.
      * apply Z.ltb_lt in Hj as Hj'.
        replace (j <? index) with true by (symmetry; apply Z.ltb_lt; lia).
        rewrite Hj. reflexivity.
      * apply Z.ltb_ge in Hj. rewrite (Hrest j Hj).
        replace ((if j <? index then j else j + 1) <? 0) with false
          by (symmetry; apply Z.ltb_ge; destruct (j <? index); lia).
        reflexivity.
  - intros other j Hne. unfold FindUTXO. cbn [UTXOs].
    destruct (length rest =? 0)%nat.
    + rewrite lookup_delete_ne by congruence. reflexivity.
    + rewrite lookup_insert_ne by congruence. reflexivity.
Qed.

End UtxoLookup.

(** ** The UTXO set: counting *)

Section UtxoCount.

Import Utxo.

Definition count_step (_ : string) (outputs : list TxOutput) (count : Z) : Z :=
  count + Z.of_nat (length outputs).

Lemma CountUTXOs_fold (u : UTXOSet) :
  CountUTXOs u = map_fold count_step 0 (UTXOs u).
Proof. reflexivity. Qed.

Lemma count_step_comm (j1 j2 : string) (z1 z2 : list TxOutput) (y : Z) :
  count_step j1 z1 (count_step j2 z2 y) = count_step j2 z2 (count_step j1 z1 y).
Proof. unfold count_step. lia. Qed.

Lemma count_delete (m : gmap string (list TxOutput)) (k : string) :
  map_fold count_step 0 (delete k m)
  = map_fold count_step 0 m - Z.of_nat (length (default [] (m !! k))).
Proof.
  destruct (m !! k) as [old|] eqn:Hk; cbn [from_option id length].
  - rewrite (map_fold_delete_L count_step 0 k old m);
      [unfold count_step; lia | intros; apply count_step_comm | exact Hk].
  - rewrite delete_id by exact Hk. lia.
Qed.

Lemma count_insert (m : gmap string (list TxOutput)) (k : string)
      (v : list TxOutput) :
  map_fold count_step 0 (<[k := v]> m)
  = map_fold count_step 0 m - Z.of_nat (length (default [] (m !! k)))
    + Z.of_nat (length v).
Proof.
  rewrite <- insert_delete_eq.
  rewrite map_fold_insert_L;
    [| intros; apply count_step_comm | apply lookup_delete_eq].
  rewrite count_delete. unfold count_step. lia.
Qed.

Lemma CountUTXOs_nonneg (u : UTXOSet) : 0 <= CountUTXOs u.
Proof.
  rewrite CountUTXOs_fold.
  apply (map_fold_weak_ind (fun r _ => 0 <= r)); [lia|].
  intros k outs m r _ Hr. unfold count_step. lia.
Qed.

Lemma RemoveUTXO_count (u : UTXOSet) (txID : option bytes) (index : Z) :
  CountUTXOs (snd (RemoveUTXO txID index u))
  = CountUTXOs u - (if is_ok (fst (RemoveUTXO txID index u)) then 1 else 0).
Proof.
  unfold RemoveUTXO.
  destruct (UTXOs u !! key txID) as [outputs|] eqn:Hent;
    [|cbn [fst snd is_ok]; lia].
  destruct ((index <? 0) || (Z.of_nat (length outputs) <=? index)) eqn:Hrange;
    [cbn [fst snd is_ok]; lia|].
  apply orb_false_iff in Hrange as [Hneg Hlen].
  apply Z.ltb_ge in Hneg. apply Z.leb_gt in Hlen.
  assert (Hrest : Z.of_nat (length (take (Z.to_nat index) outputs
                                    ++ drop (Z.to_nat index + 1) outputs))
                  = Z.of_nat (length outputs) - 1).
  { rewrite length_app, length_take, length_drop. lia. }
  destruct (length _ =? 0)%nat eqn:Hempty; cbn [fst snd is_ok];
    rewrite !CountUTXOs_fold; cbn [UTXOs].
  + apply Nat.eqb_eq in Hempty. rewrite Hempty in Hrest.
    rewrite count_delete, Hent. cbn [from_option id]. lia.
  + rewrite count_insert, Hent. cbn [from_option id]. lia.
Qed.

Lemma AddUTXO_count (u : UTXOSet) (txID : bytes) (outputs : list TxOutput) :
  CountUTXOs (snd (AddUTXO txID outputs u))
  = CountUTXOs u
    - Z.of_nat (length (default [] (UTXOs u !! key (Some txID))))
    + Z.of_nat (length outputs).
Proof.
  unfold AddUTXO. cbn [snd].
  rewrite !CountUTXOs_fold. cbn [UTXOs]. apply count_insert.
Qed.

(** X3. The number of unspent outputs is kept exactly: a successful
    [RemoveUTXO] lowers [CountUTXOs] by one and a failed one leaves it;
    [AddUTXO] raises it by the number of outputs stored, less the
    outputs of the entry it replaces. *)
Theorem CountUTXOs_bookkeeping (u : UTXOSet) :
  0 <= CountUTXOs u
  /\ (forall txID index,
        CountUTXOs (snd (RemoveUTXO txID index u))
        = CountUTXOs u
          - (if is_ok (fst (RemoveUTXO txID index u)) then 1 else 0))
  /\ (forall txID outputs,
        CountUTXOs (snd (AddUTXO txID outputs u))
        = CountUTXOs u
          - Z.of_nat (length (default [] (UTXOs u !! key (Some txID))))
          + Z.of_nat (length outputs)).
Proof.
  split; [apply CountUTXOs_nonneg|]. split.
  - intros txID index. apply RemoveUTXO_count.
  - intros txID outputs. apply AddUTXO_count.
Qed.

Lemma remove_inputs_count (inputs : list TxInput) :
  forall u u', remove_inputs inputs u = (Ok tt, u') ->
    CountUTXOs u' = CountUTXOs u - Z.of_nat (length inputs).
Proof.
  induction inputs as [|input rest IH]; intros u u' Hrm.
  - cbn [remove_inputs] in Hrm. unfold ret in Hrm.
    injection Hrm as <-. cbn [length]. lia.
  - cbn [remove_inputs] in Hrm. unfold bind, wrap in Hrm.
    pose proof (RemoveUTXO_count u (TxID input) (OutIndex input)) as Hcount.
    destruct (RemoveUTXO (TxID input) (OutIndex input) u) as [[[]|e] u1];
      [|discriminate Hrm].
    cbn [fst snd is_ok] in Hcount.
    rewrite (IH _ _ Hrm), Hcount. cbn [length]. lia.
Qed.

(** X4. When [Update] succeeds on a transaction that is not a coinbase,
    every input has consumed exactly one unspent output: the removals
    lower [CountUTXOs] by the number of inputs, and the outputs of the
    transaction are then stored under its id. *)
Theorem Update_success_count (t : Transaction) (u u' : UTXOSet) :
  IsCoinbase t = false ->
  Update t u = (Ok tt, u') ->
  exists spent,
    remove_inputs (Inputs t) u = (Ok tt, spent)
    /\ CountUTXOs spent = CountUTXOs u - Z.of_nat (length (Inputs t))
    /\ u' = snd (AddUTXO (ID t) (Outputs t) spent)
    /\ (forall i o, FindUTXO u' (Some (ID t)) i = Ok o
                    <-> 0 <= i /\ Outputs t !! Z.to_nat i = Some o).
Proof.
  intros Hcb Hup. unfold Update, bind in Hup. rewrite Hcb in Hup.
  cbn [negb] in Hup.
  destruct (remove_inputs (Inputs t) u) as [[[]|e] spent] eqn:Hrm;
    [|discriminate Hup].
  exists spent. split; [reflexivity|].
  split; [apply (remove_inputs_count _ _ _ Hrm)|].
  assert (Hu' : u' = snd (AddUTXO (ID t) (Outputs t) spent))
    by (unfold AddUTXO in *; cbn [snd]; congruence).
  split; [exact Hu'|]. rewrite Hu'.
  intros i o. apply AddUTXO_lookup.
Qed.

End UtxoCount.

(** A transaction spending the single output of [tx1]. *)
Definition spend_alice : Transaction :=
  mkTransaction (list_byte_of_string "tx4")
    [ mkTxInput (Some tx1_id) 0 [] [] ]
    [ mkTxOutput 60 (list_byte_of_string "bob");
      mkTxOutput 40 (list_byte_of_string "alice") ].

Lemma Update_success_count_witness :
  exists spent,
    Utxo.remove_inputs (Inputs spend_alice) utxo_one_output = (Ok tt, spent)
    /\ Utxo.CountUTXOs spent
       = Utxo.CountUTXOs utxo_one_output
         - Z.of_nat (length (Inputs spend_alice))
    /\ snd (Utxo.Update spend_alice utxo_one_output)
       = snd (Utxo.AddUTXO (ID spend_alice) (Outputs spend_alice) spent)
    /\ (forall i o,
          Utxo.FindUTXO (snd (Utxo.Update spend_alice utxo_one_output))
                        (Some (ID spend_alice)) i = Ok o
          <-> 0 <= i /\ Outputs spend_alice !! Z.to_nat i = Some o).
Proof.
  apply (Update_success_count spend_alice utxo_one_output).
  - reflexivity.
  - vm_compute. reflexivity.
Defined.

(** ** The merkle tree *)

Module MerkleLevels.

Import Merkle MerkleSpec.

(** The loop of [BuildMerkleTree]: [tree] collects the levels.  The
    level stored in [tree] is the one before padding: the padded slice
    is a new slice header, the stored one keeps its length. *)
Fixpoint levels_loop (fuel : nat) (currentLevel : list bytes)
         (tree : list (list bytes)) : list (list bytes) :=
  match fuel with
  | O => tree
  | S fuel' =>
      if (1 <? length currentLevel)%nat then
        let currentLevel :=
          if negb (length currentLevel mod 2 =? 0)%nat
          then currentLevel ++ [nth (length currentLevel - 1) currentLevel []]
          else currentLevel in
        let nextLevel := level_loop (length currentLevel) currentLevel 0 [] in
        levels_loop fuel' nextLevel (tree ++ [nextLevel])
      else tree
  end.

(** [BuildMerkleTree]; the nil result for no hashes is the empty list. *)
Definition BuildMerkleTree (txHashes : list bytes) : list (list bytes) :=
  if (length txHashes =? 0)%nat then []
  else levels_loop (length txHashes) txHashes [txHashes].

(** [chain level more]: each level of [more] is obtained from the one
    before it (starting at [level]) by padding and pairing, and the
    chain stops at a level of one element. *)
Inductive chain : list bytes -> list (list bytes) -> Prop :=
| chain_stop (level : list bytes) :
    (length level <= 1)%nat -> chain level []
| chain_next (level : list bytes) (more : list (list bytes)) :
    (2 <= length level)%nat ->
    chain (pair_adjacent (duplicate_last level)) more ->
    chain level (pair_adjacent (duplicate_last level) :: more).

Lemma next_level_length (level : list bytes) :
  (2 <= length level)%nat ->
  (1 <= length (pair_adjacent (duplicate_last level)) < length level)%nat.
Proof.
  intros Hlen.
  pose proof (Even_length_duplicate_last level) as [k Hk].
  pose proof (length_duplicate_last level) as Hd.
  pose proof (length_pair_adjacent _ (duplicate_last level) (Nat.le_refl _))
    as Hp.
  rewrite Hk in Hp.
  replace (Nat.div2 (2 * k)) with k in Hp by (symmetry; apply Nat.div2_double).
  destruct (Nat.odd (length level)); lia.
Qed.

Lemma levels_loop_chain (fuel : nat) :
  forall (level : list bytes) (tree : list (list bytes)),
    (1 <= length level <= fuel)%nat ->
    exists more,
      levels_loop fuel level tree = tree ++ more
      /\ chain level more
      /\ List.last (level :: more) [] = tree_loop fuel level.
Proof.
  induction fuel as [|fuel IH]; intros level tree Hlen; [lia|].
  cbn [levels_loop tree_loop]. destruct (1 <? length level)%nat eqn:H1.
  - apply Nat.ltb_lt in H1. rewrite pad_step_duplicate_last.
    rewrite level_loop_pairs;
      [| rewrite Nat.sub_0_r; apply Even_length_duplicate_last | lia].
    rewrite drop_0. cbn [app].
    pose proof (next_level_length level H1) as Hnext.
    destruct (IH (pair_adjacent (duplicate_last level))
                 (tree ++ [pair_adjacent (duplicate_last level)]))
      as (more & Hloop & Hchain & Hlast); [lia|].
    exists (pair_adjacent (duplicate_last level) :: more).
    split; [rewrite Hloop, <- app_assoc; reflexivity|].
    split; [apply chain_next; assumption|].
    rewrite <- Hlast. reflexivity.
  - apply Nat.ltb_ge in H1. exists []. split; [now rewrite app_nil_r|].
    split; [apply chain_stop; lia | reflexivity].
Qed.

Lemma BuildMerkleRoot_tree_loop (H : list bytes) :
  H <> [] -> tree_loop (length H) H = [BuildMerkleRoot H].
Proof.
  intros Hne. unfold BuildMerkleRoot.
  destruct (length H =? 0)%nat eqn:H0.
  - apply Nat.eqb_eq in H0. destruct H; [congruence | discriminate H0].
  - apply Nat.eqb_neq in H0.
    destruct (tree_loop_root (length H) H) as (r & -> & _); [lia|].
    reflexivity.
Qed.

(** X5. [BuildMerkleTree] returns no level for an empty list; for a
    non-empty list of hashes the first level is the list itself, every
    further level is the level before it padded to even length and
    hashed in pairs, and the last level is the single root that
    [BuildMerkleRoot] computes. *)
Theorem BuildMerkleTree_levels (H : list bytes) :
  BuildMerkleTree [] = []
  /\ (H <> [] ->
      exists more,
        BuildMerkleTree H = H :: more
        /\ chain H more
        /\ List.last (BuildMerkleTree H) [] = [BuildMerkleRoot H]).
Proof.
  split; [reflexivity|]. intros Hne. unfold BuildMerkleTree.
  destruct (length H =? 0)%nat eqn:H0.
  { apply Nat.eqb_eq in H0. destruct H; [congruence | discriminate H0]. }
  apply Nat.eqb_neq in H0.
  destruct (levels_loop_chain (length H) H [H])
    as (more & Hloop & Hchain & Hlast); [lia|].
  exists more. rewrite Hloop. cbn [app].
  split; [reflexivity|]. split; [exact Hchain|].
  rewrite Hlast. apply BuildMerkleRoot_tree_loop, Hne.
Qed.

Lemma BuildMerkleRoot_step (H : list bytes) :
  (2 <= length H)%nat ->
  BuildMerkleRoot H = BuildMerkleRoot (pair_adjacent (duplicate_last H)).
Proof.
  intros Hlen.
  assert (Hspec : forall l, merkle_root l (BuildMerkleRoot l)).
  { intros l. destruct l as [|h l]; [apply root_empty|].
    pose proof (BuildMerkleRoot_tree_loop (h :: l)) as Hr.
    destruct (tree_loop_root (length (h :: l)) (h :: l)) as (r & Hloop & Hroot);
      [cbn [length]; lia|].
    rewrite Hr in Hloop by discriminate. injection Hloop as ->. exact Hroot. }
  eapply merkle_root_functional; [apply Hspec|].
  apply root_level; [exact Hlen | apply Hspec].
Qed.

(** X6. The root does not tell a list of odd length (three hashes or
    more) from the same list with its last hash repeated: both have the
    same merkle root. *)
Theorem BuildMerkleRoot_repeated_last (H : list bytes) :
  (3 <= length H)%nat ->
  Nat.odd (length H) = true ->
  BuildMerkleRoot (H ++ [List.last H []]) = BuildMerkleRoot H.
Proof.
  intros Hlen Hodd.
  rewrite (BuildMerkleRoot_step H) by lia.
  rewrite (BuildMerkleRoot_step (H ++ [List.last H []]))
    by (rewrite length_app; cbn [length]; lia).
  f_equal. f_equal. unfold duplicate_last. rewrite Hodd.
  rewrite length_app. cbn [length].
  replace (length H + 1)%nat with (S (length H)) by lia.
  rewrite Nat.odd_succ, <- Nat.negb_odd, Hodd. reflexivity.
Qed.

Lemma BuildMerkleRoot_repeated_last_witness :
  BuildMerkleRoot ([[x01]; [x02]; [x03]] ++ [List.last [[x01]; [x02]; [x03]] []])
  = BuildMerkleRoot [[x01]; [x02]; [x03]].
Proof.
  apply (BuildMerkleRoot_repeated_last [[x01]; [x02]; [x03]]).
  - cbn [length]. lia.
  - reflexivity.
Defined.

Lemma length_pair_adjacent_hashes (level : list bytes) :
  Forall (fun h => length h = 32%nat) (pair_adjacent level).
Proof.
  induction level as [level IH] using (induction_ltof1 _ (@length bytes)).
  destruct level as [|x [|y rest]]; cbn [pair_adjacent]; try constructor.
  - apply length_DoubleHashBytes.
  - apply IH. unfold ltof. cbn [length]. lia.
Qed.

(** X7. The merkle root of no hash at all and of two hashes or more is
    32 bytes long, whatever the lengths of the hashes given; only the
    root of a single hash, which is that hash itself, can have another
    length. *)
Theorem BuildMerkleRoot_length (H : list bytes) :
  length H <> 1%nat -> length (BuildMerkleRoot H) = 32%nat.
Proof.
  intros Hlen.
  destruct H as [|h [|h' rest]];
    [reflexivity | exfalso; apply Hlen; reflexivity |].
  set (l := h :: h' :: rest).
  assert (Hl : (2 <= length l)%nat) by (subst l; cbn [length]; lia).
  pose proof (levels_loop_chain (length l) l [l]) as (more & _ & Hchain & Hlast);
    [lia|].
  rewrite BuildMerkleRoot_tree_loop in Hlast by (subst l; discriminate).
  assert (Hall : forall lv mr, chain lv mr ->
            Forall (fun h => length h = 32%nat) lv ->
            Forall (fun h => length h = 32%nat) (List.last (lv :: mr) [])).
  { intros lv mr Hc. induction Hc as [lv Hlv|lv mr Hlv Hc IH]; intros Hf.
    - exact Hf.
    - change (List.last (lv :: pair_adjacent (duplicate_last lv) :: mr) [])
        with (List.last (pair_adjacent (duplicate_last lv) :: mr) []).
      apply IH, length_pair_adjacent_hashes. }
  inversion Hchain as [lv Hstop|lv mr Hge Hc]; subst; [lia|].
  change (List.last (l :: pair_adjacent (duplicate_last l) :: mr) [])
    with (List.last (pair_adjacent (duplicate_last l) :: mr) []) in Hlast.
  pose proof (Hall _ _ Hc (length_pair_adjacent_hashes _)) as Hf.
  rewrite Hlast in Hf. inversion Hf; subst. assumption.
Qed.

Lemma BuildMerkleRoot_length_witness :
  length (BuildMerkleRoot [[x01]; [x02]]) = 32%nat.
Proof.
  apply (BuildMerkleRoot_length [[x01]; [x02]]). cbn [length]. lia.
Defined.

End MerkleLevels.

(** ** Proof-of-work: targets and comparisons *)

Section Targets.

Import Pow.

Lemma IsValidHash_lt (hash : bytes) (b : Z) :
  IsValidHash hash b = true <-> SetBytes hash < 2 ^ shift_amount b.
Proof.
  unfold IsValidHash, below_target.
  rewrite Z.shiftl_1_l. apply Z.ltb_lt.
Qed.

Lemma shift_amount_nonneg (b : Z) : 0 <= shift_amount b < 2 ^ 32.
Proof. unfold shift_amount. apply Z.mod_pos_bound. lia. Qed.



(** X9. The shift [uint(256-targetBits)] is computed on 32 bits and
    wraps around: for a difficulty field above 256 the target exceeds
    every 256-bit number, so every hash of at most 32 bytes is valid,
    and every block that declares such a difficulty passes [Validate].
    At difficulty 256 exactly, only a hash whose bytes are all zero is
    valid. *)
Theorem difficulty_above_256_wraps (b : Z) :
  256 < b < 2 ^ 32 ->
  (forall hash, (length hash <= 32)%nat -> IsValidHash hash b = true)
  /\ (forall block, DifficultyTarget (Header block) = b ->
        Validate (NewProofOfWork block) = true)
  /\ (forall hash, IsValidHash hash 256 = true <-> SetBytes hash = 0).
Proof.
  intros Hb.
  assert (Hshift : 256 < shift_amount b).
  { unfold shift_amount.
    replace (256 - b) with ((2 ^ 32 + 256 - b) + (-1) * 2 ^ 32) by lia.
    rewrite Z.mod_add by lia. rewrite Z.mod_small; lia. }
  assert (Hany : forall hash, (length hash <= 32)%nat ->
                   SetBytes hash < 2 ^ shift_amount b).
  { intros hash Hlen. pose proof (SetBytes_range hash) as Hr.
    eapply Z.lt_le_trans; [apply Hr|].
    replace 256 with (2 ^ 8) at 1 by reflexivity.
    rewrite <- Z.pow_mul_r by lia.
    apply Z.pow_le_mono_r; lia. }
  split; [intros hash Hlen; apply IsValidHash_lt, Hany, Hlen|].
  split.
  - intros block Hd. unfold Validate, NewProofOfWork, below_target.
    cbn [PBlock Target]. rewrite Hd, Z.shiftl_1_l.
    apply Z.ltb_lt, Hany. unfold HashBlockHeader.
    rewrite length_DoubleHashBytes. lia.
  - intros hash. rewrite IsValidHash_lt.
    rewrite shift_amount_small by lia.
    replace (256 - 256) with 0 by lia.
    pose proof (SetBytes_range hash). change (2 ^ 0) with 1. lia.
Qed.

Lemma difficulty_above_256_wraps_witness :
  (forall hash, (length hash <= 32)%nat -> IsValidHash hash 257 = true)
  /\ (forall block, DifficultyTarget (Header block) = 257 ->
        Validate (NewProofOfWork block) = true)
  /\ (forall hash, IsValidHash hash 256 = true <-> SetBytes hash = 0).
Proof.
  apply (difficulty_above_256_wraps 257).
  split; [lia | reflexivity].
Defined.

(** [bytes.Compare]: lexicographic comparison of byte strings. *)
Fixpoint bytes_Compare (a b : bytes) : Z :=
  match a, b with
  | [], [] => 0
  | [], _ :: _ => -1
  | _ :: _, [] => 1
  | x :: a', y :: b' =>
      if Z_of_byte x <? Z_of_byte y then -1
      else if Z_of_byte y <? Z_of_byte x then 1
      else bytes_Compare a' b'
  end.

(** [CompareHashes]. *)
Definition CompareHashes (hash1 hash2 : bytes) : Z := bytes_Compare hash1 hash2.

Lemma Z_of_byte_inj (x y : byte) : Z_of_byte x = Z_of_byte y -> x = y.
Proof.
  unfold Z_of_byte. intros H. apply N2Z.inj in H.
  apply (f_equal Byte.of_N) in H. rewrite !Byte.of_to_N in H.
  now injection H.
Qed.

Lemma SetBytes_cons (x : byte) (bs : bytes) :
  SetBytes (x :: bs) = Z_of_byte x * 256 ^ Z.of_nat (length bs) + SetBytes bs.
Proof.
  unfold SetBytes at 1. cbn [fold_left]. rewrite fold_SetBytes. lia.
Qed.

Lemma bytes_Compare_numeric (a : bytes) :
  forall b, length a = length b ->
    bytes_Compare a b = (if SetBytes a <? SetBytes b then -1
                         else if SetBytes b <? SetBytes a then 1 else 0)
    /\ (SetBytes a = SetBytes b -> a = b).
Proof.
  induction a as [|x a IH]; intros [|y b] Hlen; try discriminate Hlen.
  - split; reflexivity.
  - injection Hlen as Hlen. destruct (IH b Hlen) as [Hcmp Hinj].
    cbn [bytes_Compare]. rewrite !SetBytes_cons, <- Hlen.
    pose proof (SetBytes_range a) as Ha. pose proof (SetBytes_range b) as Hb.
    rewrite <- Hlen in Hb.
    pose proof (Z_of_byte_range x) as Hx. pose proof (Z_of_byte_range y) as Hy.
    set (p := 256 ^ Z.of_nat (length a)) in *.
    assert (Hp : 0 < p) by (subst p; apply Z.pow_pos_nonneg; lia).
    destruct (Z_of_byte x <? Z_of_byte y) eqn:Hxy.
    { apply Z.ltb_lt in Hxy. split.
      - replace (_ <? _) with true; [reflexivity|].
        symmetry. apply Z.ltb_lt. nia.
      - intros Heq. exfalso. nia. }
    apply Z.ltb_ge in Hxy.
    destruct (Z_of_byte y <? Z_of_byte x) eqn:Hyx.
    { apply Z.ltb_lt in Hyx. split.
      - replace (_ <? _) with false by (symmetry; apply Z.ltb_ge; nia).
        replace (_ <? _) with true; [reflexivity|].
        symmetry. apply Z.ltb_lt. nia.
      - intros Heq. exfalso. nia. }
    apply Z.ltb_ge in Hyx.
    assert (Heqxy : Z_of_byte x = Z_of_byte y) by lia.
    apply Z_of_byte_inj in Heqxy as <-.
    split.
    + rewrite Hcmp.
      replace (Z_of_byte x * p + SetBytes a <? Z_of_byte x * p + SetBytes b)
        with (SetBytes a <? SetBytes b)
        by (destruct (SetBytes a <? SetBytes b) eqn:E; symmetry;
            [apply Z.ltb_lt; apply Z.ltb_lt in E | apply Z.ltb_ge; apply Z.ltb_ge in E];
            lia).
      replace (Z_of_byte x * p + SetBytes b <? Z_of_byte x * p + SetBytes a)
        with (SetBytes b <? SetBytes a)
        by (destruct (SetBytes b <? SetBytes a) eqn:E; symmetry;
            [apply Z.ltb_lt; apply Z.ltb_lt in E | apply Z.ltb_ge; apply Z.ltb_ge in E];
            lia).
      reflexivity.
    + intros Heq. f_equal. apply Hinj. lia.
Qed.

(** X10. On hashes of equal length, [CompareHashes] orders them as the
    big-endian numbers they encode: the result is -1, 0 or 1 as the
    first number is below, equal to or above the second, and it is 0
    only for equal byte strings. *)
Theorem CompareHashes_numeric (hash1 hash2 : bytes) :
  length hash1 = length hash2 ->
  (CompareHashes hash1 hash2 = -1 <-> SetBytes hash1 < SetBytes hash2)
  /\ (CompareHashes hash1 hash2 = 1 <-> SetBytes hash2 < SetBytes hash1)
  /\ (CompareHashes hash1 hash2 = 0 <-> hash1 = hash2).
Proof.
  intros Hlen. unfold CompareHashes.
  destruct (bytes_Compare_numeric hash1 hash2 Hlen) as [-> Hinj].
  destruct (SetBytes hash1 <? SetBytes hash2) eqn:H12.
  { apply Z.ltb_lt in H12. repeat split; try lia; try (intros H; discriminate H).
    intros ->. lia. }
  apply Z.ltb_ge in H12.
  destruct (SetBytes hash2 <? SetBytes hash1) eqn:H21.
  { apply Z.ltb_lt in H21. repeat split; try lia; try (intros H; discriminate H).
    intros ->. lia. }
  apply Z.ltb_ge in H21.
  repeat split; try lia; try (intros H; discriminate H).
  intros _. apply Hinj. lia.
Qed.

Lemma CompareHashes_numeric_witness :
  (CompareHashes [x01; x02] [x01; x03] = -1
   <-> SetBytes [x01; x02] < SetBytes [x01; x03])
  /\ (CompareHashes [x01; x02] [x01; x03] = 1
      <-> SetBytes [x01; x03] < SetBytes [x01; x02])
  /\ (CompareHashes [x01; x02] [x01; x03] = 0 <-> [x01; x02] = [x01; x03]).
Proof. apply (CompareHashes_numeric [x01; x02] [x01; x03]). reflexivity. Defined.

End Targets.

(** ** The chain engine: lookups, chain validation, retargeting *)

Module Engine.

Import Blockchain.

(** [fmt.Sprintf("%d", i)]. *)
Definition itoa (i : Z) : string := NilZero.string_of_int (Z.to_int i).

(** The loop of [GetBlockByHash] over the blocks. *)
Fixpoint find_block (blocks : list Block) (hash : bytes) : result Block :=
  match blocks with
  | [] => Err "block not found"
  | block :: rest =>
      if bytes_Equal (Hash block) hash then Ok block
      else find_block rest hash
  end.

Definition GetBlockByHash (bc : Blockchain) (hash : bytes) : result Block :=
  find_block (Blocks bc) hash.

(** The inner loop of [FindTransaction] over the transactions of one
    block, and its outer loop over the blocks; a block whose content is
    not a transaction list is skipped. *)
Fixpoint find_tx (transactions : list Transaction) (id : bytes)
  : option Transaction :=
  match transactions with
  | [] => None
  | transaction :: rest =>
      if bytes_Equal (ID transaction) id then Some transaction
      else find_tx rest id
  end.

Fixpoint find_in_blocks (blocks : list Block) (id : bytes)
  : result Transaction :=
  match blocks with
  | [] => Err "transaction not found"
  | block :: rest =>
      match Transactions block with
      | None => find_in_blocks rest id
      | Some transactions =>
          match find_tx transactions id with
          | Some transaction => Ok transaction
          | None => find_in_blocks rest id
          end
      end
  end.

Definition FindTransaction (bc : Blockchain) (id : bytes) : result Transaction :=
  find_in_blocks (Blocks bc) id.

(** The loop [for i := 1; i < len(bc.Blocks); i++] of [ValidateChain]:
    [prevBlock] is [bc.Blocks[i-1]] and [blocks] starts at [bc.Blocks[i]]. *)
Fixpoint validate_from (i : Z) (prevBlock : Block) (blocks : list Block)
  : result unit :=
  match blocks with
  | [] => Ok tt
  | block :: rest =>
      if negb (Pow.Validate (Pow.NewProofOfWork block)) then
        Err ("invalid PoW at block " ++ itoa i)
      else if negb (bytes_Equal (PrevBlockHash (Header block)) (Hash prevBlock))
      then Err ("broken chain at block " ++ itoa i)
      else
        match Transactions block with
        | None => Err ("invalid transaction type at block " ++ itoa i)
        | Some transactions =>
            let computedMerkleRoot :=
              Merkle.BuildMerkleRoot (tx_hashes transactions) in
            if negb (bytes_Equal computedMerkleRoot (MerkleRoot (Header block)))
            then Err ("invalid merkle root at block " ++ itoa i)
            else validate_from (i + 1) block rest
        end
  end.

Definition ValidateChain (bc : Blockchain) : result unit :=
  match Blocks bc with
  | [] => Ok tt
  | first :: rest => validate_from 1 first rest
  end.

Definition BlockGenerationInterval : Z := 10.
Definition DifficultyAdjustmentInterval : Z := 10.

(** [t.Sub(u)]: a [time.Duration], in nanoseconds, saturated to the
    range of [int64]. *)
Definition Sub (t u : Time) : Z :=
  Z.max (- 2 ^ 63) (Z.min (2 ^ 63 - 1) (t - u)).

(** [adjustDifficulty].  The source compares [d.Seconds()], a float64,
    with [expectedTime/2 = 50] and [expectedTime*2 = 200]; the duration
    [d] is a whole number of nanoseconds and the float of such a
    duration is below 50 (above 200) exactly when [d] is below
    [50 * Second] (above [200 * Second]), which is what is written
    here. *)
Definition adjustDifficulty (bc : Blockchain) : Blockchain :=
  let blockCount := Z.of_nat (length (Blocks bc)) in
  if negb (blockCount mod DifficultyAdjustmentInterval =? 0) then bc
  else if blockCount <? DifficultyAdjustmentInterval then bc
  else
    match Blocks bc !! Z.to_nat (blockCount - DifficultyAdjustmentInterval),
          Blocks bc !! Z.to_nat (blockCount - 1) with
    | Some lastAdjustmentBlock, Some currentBlock =>
        let timeTaken := Sub (Timestamp (Header currentBlock))
                             (Timestamp (Header lastAdjustmentBlock)) in
        let expectedTime :=
          DifficultyAdjustmentInterval * BlockGenerationInterval in
        if 2 * timeTaken <? expectedTime * Second then
          if BCDifficultyTarget bc <? 32 then
            mkBlockchain (Blocks bc) (BCDifficultyTarget bc + 1)
                         (UTXOSet bc) (PendingTxs bc)
          else bc
        else if expectedTime * 2 * Second <? timeTaken then
          if 8 <? BCDifficultyTarget bc then
            mkBlockchain (Blocks bc) (BCDifficultyTarget bc - 1)
                         (UTXOSet bc) (PendingTxs bc)
          else bc
        else bc
    | _, _ => bc
    end.

End Engine.

Section EngineProperties.

Import Blockchain Engine.

Lemma find_block_spec (blocks : list Block) (hash : bytes) :
  match find_block blocks hash with
  | Ok b =>
      exists i, blocks !! i = Some b /\ Hash b = hash
                /\ forall j b', (j < i)%nat -> blocks !! j = Some b' ->
                                Hash b' <> hash
  | Err e =>
      e = "block not found"%string
      /\ forall b', b' ∈ blocks -> Hash b' <> hash
  end.
Proof.
  induction blocks as [|block rest IH]; cbn [find_block].
  - split; [reflexivity|]. intros b' Hin. inversion Hin.
  - destruct (bytes_Equal (Hash block) hash) eqn:E.
    + apply bytes_Equal_true in E. exists 0%nat.
      split; [reflexivity|]. split; [exact E|]. intros j b' Hj. lia.
    + assert (Hne : Hash block <> hash).
      { intros Heq. apply bytes_Equal_true in Heq. congruence. }
      destruct (find_block rest hash) as [b|e].
      * destruct IH as (i & Hi & Hh & Hfirst). exists (S i).
        split; [exact Hi|]. split; [exact Hh|].
        intros [|j] b' Hj Hb'; [injection Hb' as <-; exact Hne|].
        apply (Hfirst j); [lia | exact Hb'].
      * destruct IH as [-> Hall]. split; [reflexivity|].
        intros b' Hin. apply elem_of_cons in Hin as [->|Hin];
          [exact Hne | apply Hall, Hin].
Qed.

(** X11. [GetBlockByHash] returns the first block of the chain whose
    cached hash equals the hash asked for, and fails with "block not
    found" exactly when no block has it; in particular every block that
    [GetBlock] returns can be found again by its hash, up to blocks with
    the same cached hash. *)
Theorem GetBlockByHash_first_match (bc : Blockchain) (hash : bytes) :
  (forall b, GetBlockByHash bc hash = Ok b <->
     exists i, Blocks bc !! i = Some b /\ Hash b = hash
               /\ forall j b', (j < i)%nat -> Blocks bc !! j = Some b' ->
                               Hash b' <> hash)
  /\ (GetBlockByHash bc hash = Err "block not found" <->
      forall b', b' ∈ Blocks bc -> Hash b' <> hash)
  /\ (forall i b, GetBlock bc i = Ok b ->
        exists b', GetBlockByHash bc (Hash b) = Ok b' /\ Hash b' = Hash b).
Proof.
  unfold GetBlockByHash.
  pose proof (find_block_spec (Blocks bc) hash) as Hspec.
  split; [|split].
  - intros b. split.
    + intros Hok. rewrite Hok in Hspec. exact Hspec.
    + intros (i & Hi & Hh & Hfirst).
      destruct (find_block (Blocks bc) hash) as [b0|e].
      * destruct Hspec as (i0 & Hi0 & Hh0 & Hfirst0).
        destruct (Nat.lt_trichotomy i i0) as [Hlt|[Heq|Hgt]].
        -- exfalso. apply (Hfirst0 i b Hlt Hi Hh).
        -- subst i0. congruence.
        -- exfalso. apply (Hfirst i0 b0 Hgt Hi0 Hh0).
      * destruct Hspec as [_ Hall]. exfalso.
        apply (Hall b); [eapply list_elem_of_lookup_2, Hi | exact Hh].
  - split.
    + intros Herr. rewrite Herr in Hspec. apply Hspec.
    + intros Hall. destruct (find_block (Blocks bc) hash) as [b0|e].
      * destruct Hspec as (i0 & Hi0 & Hh0 & _). exfalso.
        apply (Hall b0); [eapply list_elem_of_lookup_2, Hi0 | exact Hh0].
      * destruct Hspec as [-> _]. reflexivity.
  - intros i b Hget.
    pose proof (find_block_spec (Blocks bc) (Hash b)) as Hb.
    destruct (find_block (Blocks bc) (Hash b)) as [b'|e].
    + destruct Hb as (_ & _ & Hh & _). exists b'. split; [reflexivity | exact Hh].
    + destruct Hb as [_ Hall]. exfalso. apply (Hall b); [|reflexivity].
      unfold GetBlock in Hget.
      destruct ((i <? 0) || (Z.of_nat (length (Blocks bc)) <=? i));
        [discriminate Hget|].
      destruct (Blocks bc !! Z.to_nat i) as [b0|] eqn:Hl; [|discriminate Hget].
      injection Hget as <-. eapply list_elem_of_lookup_2, Hl.
Qed.

Lemma find_tx_spec (transactions : list Transaction) (id : bytes) :
  match find_tx transactions id with
  | Some t => t ∈ transactions /\ ID t = id
  | None => forall t, t ∈ transactions -> ID t <> id
  end.
Proof.
  induction transactions as [|t rest IH]; cbn [find_tx].
  - intros t Hin. inversion Hin.
  - destruct (bytes_Equal (ID t) id) eqn:E.
    + apply bytes_Equal_true in E. split; [apply list_elem_of_here | exact E].
    + assert (Hne : ID t <> id).
      { intros Heq. apply bytes_Equal_true in Heq. congruence. }
      destruct (find_tx rest id) as [t'|].
      * destruct IH as [Hin Hid]. split; [apply list_elem_of_further, Hin | exact Hid].
      * intros t' Hin. apply elem_of_cons in Hin as [->|Hin];
          [exact Hne | apply IH, Hin].
Qed.

(** X12. [FindTransaction] answers with a transaction of some block of
    the chain that carries the id asked for, and fails with "transaction
    not found" exactly when no transaction of any block carries it. *)
Theorem FindTransaction_found (bc : Blockchain) (id : bytes) :
  (forall t, FindTransaction bc id = Ok t ->
     ID t = id
     /\ exists block transactions,
          block ∈ Blocks bc /\ Transactions block = Some transactions
          /\ t ∈ transactions)
  /\ (FindTransaction bc id = Err "transaction not found" <->
      forall block transactions t,
        block ∈ Blocks bc -> Transactions block = Some transactions ->
        t ∈ transactions -> ID t <> id)
  /\ (is_ok (FindTransaction bc id) = false ->
      FindTransaction bc id = Err "transaction not found").
Proof.
  unfold FindTransaction. induction (Blocks bc) as [|block rest IH];
    cbn [find_in_blocks].
  - split; [intros t H; discriminate H|].
    split; [|reflexivity].
    split; [|reflexivity]. intros _ block txs t Hin. inversion Hin.
  - destruct IH as (IHok & IHerr & IHmsg).
    assert (Hrest :
      (forall t, find_in_blocks rest id = Ok t ->
         ID t = id /\ exists b txs, b ∈ block :: rest
                      /\ Transactions b = Some txs /\ t ∈ txs)).
    { intros t Ht. destruct (IHok t Ht) as (Hid & b & txs & Hb & Htx & Hin).
      split; [exact Hid|]. exists b, txs.
      split; [apply list_elem_of_further, Hb | split; assumption]. }
    destruct (Transactions block) as [transactions|] eqn:Htxs.
    2:{ split; [exact Hrest|]. split; [|exact IHmsg]. split.
        - intros Herr b txs t Hb Htx Hin.
          apply elem_of_cons in Hb as [->|Hb]; [congruence|].
          apply (proj1 IHerr Herr b txs t Hb Htx Hin).
        - intros Hall. apply IHerr. intros b txs t Hb.
          apply Hall, list_elem_of_further, Hb. }
    pose proof (find_tx_spec transactions id) as Hfind.
    destruct (find_tx transactions id) as [t0|].
    + destruct Hfind as [Hin Hid]. split.
      * intros t [= <-]. split; [exact Hid|]. exists block, transactions.
        split; [apply list_elem_of_here | split; assumption].
      * split; [|intros H; discriminate H]. split; [intros H; discriminate H|].
        intros Hall. exfalso.
        apply (Hall block transactions t0 (list_elem_of_here _ _) Htxs Hin Hid).
    + split; [exact Hrest|]. split; [|exact IHmsg]. split.
      * intros Herr b txs t Hb Htx Hin.
        apply elem_of_cons in Hb as [->|Hb].
        -- rewrite Htxs in Htx. injection Htx as <-. apply Hfind, Hin.
        -- apply (proj1 IHerr Herr b txs t Hb Htx Hin).
      * intros Hall. apply IHerr. intros b txs t Hb.
        apply Hall, list_elem_of_further, Hb.
Qed.

End EngineProperties.

Section ChainValidation.

Import Blockchain Engine.

(** What [ValidateChain] requires of a block and its predecessor. *)
Definition link_ok (prevBlock block : Block) : Prop :=
  Pow.Validate (Pow.NewProofOfWork block) = true
  /\ PrevBlockHash (Header block) = Hash prevBlock
  /\ exists transactions,
       Transactions block = Some transactions
       /\ Merkle.BuildMerkleRoot (map ID transactions)
          = MerkleRoot (Header block).

Lemma validate_from_ok (blocks : list Block) :
  forall (i : Z) (prevBlock : Block),
    validate_from i prevBlock blocks = Ok tt <->
    forall k p b, (prevBlock :: blocks) !! k = Some p ->
                  (prevBlock :: blocks) !! S k = Some b -> link_ok p b.
Proof.
  induction blocks as [|block rest IH]; intros i prevBlock;
    cbn [validate_from].
  - split; [|reflexivity]. intros _ k p b _ Hb.
    destruct k; discriminate Hb.
  - assert (Hhead : forall P : Prop,
              ~ link_ok prevBlock block ->
              (forall k p b, (prevBlock :: block :: rest) !! k = Some p ->
                 (prevBlock :: block :: rest) !! S k = Some b -> link_ok p b)
              -> P).
    { intros P Hno Hall. exfalso. apply Hno.
      apply (Hall 0%nat prevBlock block); reflexivity. }
    destruct (Pow.Validate (Pow.NewProofOfWork block)) eqn:Hpow; cbn [negb].
    2:{ split; [intros H; discriminate H|]. apply Hhead.
        intros (H & _). congruence. }
    destruct (bytes_Equal (PrevBlockHash (Header block)) (Hash prevBlock))
      eqn:Hprev; cbn [negb].
    2:{ split; [intros H; discriminate H|]. apply Hhead.
        intros (_ & H & _). apply bytes_Equal_true in H. congruence. }
    apply bytes_Equal_true in Hprev.
    destruct (Transactions block) as [transactions|] eqn:Htxs.
    2:{ split; [intros H; discriminate H|]. apply Hhead.
        intros (_ & _ & txs & H & _). congruence. }
    destruct (bytes_Equal (Merkle.BuildMerkleRoot (tx_hashes transactions))
                          (MerkleRoot (Header block))) eqn:Hroot; cbn [negb].
    2:{ split; [intros H; discriminate H|]. apply Hhead.
        intros (_ & _ & txs & Htx & H).
        assert (txs = transactions) as -> by congruence.
        apply bytes_Equal_true in H. unfold tx_hashes in Hroot. congruence. }
    apply bytes_Equal_true in Hroot.
    rewrite IH. split.
    + intros Hall [|k] p b Hp Hb.
      * injection Hp as <-. injection Hb as <-.
        split; [exact Hpow|]. split; [exact Hprev|].
        exists transactions. split; [exact Htxs | exact Hroot].
      * apply (Hall k p b Hp Hb).
    + intros Hall k p b Hp Hb. apply (Hall (S k) p b Hp Hb).
Qed.

(** X13. [ValidateChain] accepts a chain exactly when every block
    after the first has a header hash below the target of its own
    difficulty field, names the cached hash of its predecessor as
    previous hash, and carries a transaction list whose merkle root is
    the one in its header.  Nothing else is checked: the first block is
    only read for its cached hash, and no cached hash is compared with
    the hash of its header. *)
Theorem ValidateChain_rules (bc : Blockchain) :
  (ValidateChain bc = Ok tt <->
   forall i prevBlock block,
     Blocks bc !! i = Some prevBlock ->
     Blocks bc !! S i = Some block ->
     link_ok prevBlock block)
  /\ (forall first first' rest d u p,
        Blocks bc = first :: rest ->
        Hash first' = Hash first ->
        ValidateChain (mkBlockchain (first' :: rest) d u p)
        = ValidateChain bc).
Proof.
  split.
  - unfold ValidateChain. destruct (Blocks bc) as [|first rest].
    + split; [|reflexivity]. intros _ i p b Hp. discriminate Hp.
    + apply validate_from_ok.
  - intros first first' rest d u p Hblocks Hhash.
    unfold ValidateChain. rewrite Hblocks. cbn [Blocks].
    destruct rest as [|block rest]; [reflexivity|].
    cbn [validate_from]. rewrite Hhash. reflexivity.
Qed.

(** X14. [adjustDifficulty] changes nothing but the difficulty, moves
    it by at most one bit, keeps it within [8, 32] once it is there,
    and leaves it alone unless the number of blocks is a positive
    multiple of ten. *)
Theorem adjustDifficulty_clamped (bc : Blockchain) :
  Blocks (adjustDifficulty bc) = Blocks bc
  /\ UTXOSet (adjustDifficulty bc) = UTXOSet bc
  /\ PendingTxs (adjustDifficulty bc) = PendingTxs bc
  /\ Z.abs (BCDifficultyTarget (adjustDifficulty bc) - BCDifficultyTarget bc)
     <= 1
  /\ (8 <= BCDifficultyTarget bc <= 32 ->
      8 <= BCDifficultyTarget (adjustDifficulty bc) <= 32)
  /\ (BCDifficultyTarget (adjustDifficulty bc) <> BCDifficultyTarget bc ->
      0 < Z.of_nat (length (Blocks bc))
      /\ Z.of_nat (length (Blocks bc)) mod 10 = 0).
Proof.
  unfold adjustDifficulty, DifficultyAdjustmentInterval.
  destruct (Z.of_nat (length (Blocks bc)) mod 10 =? 0) eqn:Hmod; cbn [negb].
  2:{ repeat split; try reflexivity; try lia; try congruence. }
  apply Z.eqb_eq in Hmod.
  destruct (Z.of_nat (length (Blocks bc)) <? 10) eqn:Hlt.
  { repeat split; try reflexivity; try lia; try congruence. }
  apply Z.ltb_ge in Hlt.
  destruct (Blocks bc !! Z.to_nat (Z.of_nat (length (Blocks bc)) - 10))
    as [lastAdjustmentBlock|];
    [|repeat split; try reflexivity; try lia; try congruence].
  destruct (Blocks bc !! Z.to_nat (Z.of_nat (length (Blocks bc)) - 1))
    as [currentBlock|];
    [|repeat split; try reflexivity; try lia; try congruence].
  destruct (2 * _ <? _).
  - destruct (BCDifficultyTarget bc <? 32) eqn:H32.
    + apply Z.ltb_lt in H32. cbn [Blocks UTXOSet PendingTxs BCDifficultyTarget].
      repeat split; try reflexivity; try lia.
    + repeat split; try reflexivity; try lia; try congruence.
  - destruct (_ <? Sub _ _).
    + destruct (8 <? BCDifficultyTarget bc) eqn:H8.
      * apply Z.ltb_lt in H8.
        cbn [Blocks UTXOSet PendingTxs BCDifficultyTarget].
        repeat split; try reflexivity; try lia.
      * repeat split; try reflexivity; try lia; try congruence.
    + repeat split; try reflexivity; try lia; try congruence.
Qed.

End ChainValidation.

Section Totals.

Import Blockchain Server.

(** The number of transactions held by a list of blocks. *)
Definition total_txs (blocks : list Block) : Z :=
  fold_right (fun b acc => Z.of_nat (length (default [] (Transactions b))) + acc)
             0 blocks.

Lemma total_loop_sum (c : Blockchain) (n : nat) :
  (forall b, b ∈ Blocks c -> is_Some (Transactions b)) ->
  forall (k : nat) (count : Z),
    (k + n = length (Blocks c) + 1)%nat ->
    total_loop n c (Z.of_nat k) count
    = Ok (count + total_txs (drop k (Blocks c))).
Proof.
  intros Hall. induction n as [|n IH]; intros k count Hk.
  - cbn [total_loop]. rewrite drop_ge by lia. cbn [total_txs fold_right].
    f_equal. lia.
  - cbn [total_loop].
    destruct (Nat.eq_dec k (length (Blocks c))) as [Hend|Hin].
    + rewrite GetBlock_out_of_range by (unfold Height; lia).
      replace (Z.of_nat k + 1) with (Z.of_nat (S k)) by lia.
      rewrite IH by lia. rewrite !drop_ge by lia. reflexivity.
    + destruct (lookup_lt_is_Some_2 (Blocks c) k) as [b Hb]; [lia|].
      assert (Hget : GetBlock c (Z.of_nat k) = Ok b).
      { unfold GetBlock.
        replace ((Z.of_nat k <? 0) || (Z.of_nat (length (Blocks c)) <=? Z.of_nat k))
          with false
          by (symmetry; apply orb_false_iff; split;
              [apply Z.ltb_ge | apply Z.leb_gt]; lia).
        rewrite Nat2Z.id, Hb. reflexivity. }
      rewrite Hget.
      destruct (Hall b (list_elem_of_lookup_2 _ _ _ Hb)) as [txs Htxs].
      rewrite Htxs.
      replace (Z.of_nat k + 1) with (Z.of_nat (S k)) by lia.
      rewrite IH by lia. rewrite (drop_S _ _ _ Hb).
      cbn [total_txs fold_right]. rewrite Htxs. cbn [from_option id].
      f_equal. fold (total_txs (drop (S k) (Blocks c))). lia.
Qed.

Lemma total_loop_panics (c : Blockchain) (n : nat) :
  forall (k : nat) (count : Z) (j : nat) (b : Block),
    (k + n = length (Blocks c) + 1)%nat ->
    (k <= j)%nat -> Blocks c !! j = Some b -> Transactions b = None ->
    is_ok (total_loop n c (Z.of_nat k) count) = false.
Proof.
  induction n as [|n IH]; intros k count j b Hk Hj Hb Hnone.
  - apply lookup_lt_Some in Hb. lia.
  - cbn [total_loop]. apply lookup_lt_Some in Hb as Hjlen.
    destruct (lookup_lt_is_Some_2 (Blocks c) k) as [bk Hbk]; [lia|].
    assert (Hget : GetBlock c (Z.of_nat k) = Ok bk).
    { unfold GetBlock.
      replace ((Z.of_nat k <? 0) || (Z.of_nat (length (Blocks c)) <=? Z.of_nat k))
        with false
        by (symmetry; apply orb_false_iff; split;
            [apply Z.ltb_ge | apply Z.leb_gt]; lia).
      rewrite Nat2Z.id, Hbk. reflexivity. }
    rewrite Hget. destruct (Transactions bk) as [txs|] eqn:Htxs; [|reflexivity].
    replace (Z.of_nat k + 1) with (Z.of_nat (S k)) by lia.
    apply (IH (S k) _ j b); [lia | | exact Hb | exact Hnone].
    destruct (Nat.eq_dec k j) as [->|Hne]; [congruence | lia].
Qed.

(** X15. When every block of the chain holds a transaction list,
    [GetBlockchainInfo] reports the number of blocks as height, the
    engine's difficulty, and as total the number of transactions of all
    blocks together (the extra loop index at [Height] is skipped); when
    some block holds something else, the unchecked type assertion of
    [getTotalTransactions] panics. *)
Theorem GetBlockchainInfo_totals (s : Server) :
  ((forall b, b ∈ Blocks (bc s) -> is_Some (Transactions b)) ->
   exists info,
     GetBlockchainInfo s = Ok info
     /\ InfoHeight info = Z.of_nat (length (Blocks (bc s)))
     /\ Difficulty info = BCDifficultyTarget (bc s)
     /\ TotalTransactions info = total_txs (Blocks (bc s)))
  /\ ((exists b, b ∈ Blocks (bc s) /\ Transactions b = None) ->
      GetBlockchainInfo s = Err "panic: interface conversion").
Proof.
  split.
  - intros Hall. unfold GetBlockchainInfo, getTotalTransactions.
    replace (Z.to_nat (Height (bc s) + 1)) with (length (Blocks (bc s)) + 1)%nat
      by (unfold Height; lia).
    rewrite (total_loop_sum (bc s) _ Hall 0%nat 0) by lia.
    rewrite drop_0. eexists. split; [reflexivity|].
    cbn [InfoHeight Difficulty TotalTransactions]. unfold Height.
    repeat split; lia.
  - intros (b & Hin & Hnone). apply list_elem_of_lookup_1 in Hin as [j Hj].
    unfold GetBlockchainInfo, getTotalTransactions.
    replace (Z.to_nat (Height (bc s) + 1)) with (length (Blocks (bc s)) + 1)%nat
      by (unfold Height; lia).
    pose proof (total_loop_panics (bc s) (length (Blocks (bc s)) + 1) 0%nat 0
                  j b ltac:(lia) ltac:(lia) Hj Hnone) as Hpanic.
    change (Z.of_nat 0) with 0 in Hpanic.
    assert (Hmsg : forall n k count e,
              total_loop n (bc s) k count = Err e ->
              e = "panic: interface conversion"%string).
    { induction n as [|n IH]; intros k count e; cbn [total_loop];
        [intros H; discriminate H|].
      destruct (GetBlock (bc s) k) as [bk|]; [|apply IH].
      destruct (Transactions bk); [apply IH | intros [= <-]; reflexivity]. }
    destruct (total_loop _ _ _ _) as [total|e] eqn:Hloop;
      [discriminate Hpanic|].
    rewrite (Hmsg _ _ _ _ Hloop). reflexivity.
Qed.

End Totals.
